(** * Instashop scraper: a shallow embedding of [scraper.py] and
      [run_scraper.py], and the properties of its orchestration pipeline.

    Layout: [Py] models the parts of the Python runtime the program relies
    on (strings, exceptions, binary64 floats, [float(str)]); [Scraper]
    embeds [scraper.py]; [RunScraper] embeds [run_scraper.py]; the theorems
    follow the definitions. *)

From Stdlib Require Import ZArith NArith List String Ascii Bool Lia.
From Stdlib Require Import Floats.SpecFloat.
From stdpp Require Import base option list gmap sets.
Import ListNotations.

(* stdpp's [set_solver] clears hypotheses that it may have used up. *)
#[local] Set Warnings "-clear-no-such-hyp".

(* ================================================================== *)
(** * The Python runtime, as far as the program uses it                *)
(* ================================================================== *)

Module Py.

(** ** Strings: sequences of Unicode code points *)

Definition char := N.
Bind Scope N_scope with char.
Definition str := list char.

(** An ASCII literal as a Python string. *)
Definition lit (s : string) : str := map N_of_ascii (list_ascii_of_string s).

(** The character classes of [str.isdigit], [str.isalnum], [str.isspace]
    and the decimal value of a character ([Py_UNICODE_TODECIMAL]) come from
    the Unicode character database of the interpreter.  The database is a
    parameter of the model; what the proofs need from it is [unicode_ok]. *)
Record unicode := {
  isdigit : char -> bool;
  isalnum : char -> bool;
  isspace : char -> bool;
  todecimal : char -> option N }.

Definition ascii_digit (c : char) : bool := ((48 <=? c) && (c <=? 57))%N.
Definition ascii_alpha (c : char) : bool :=
  (((65 <=? c) && (c <=? 90)) || ((97 <=? c) && (c <=? 122)))%N.
Definition ascii_space (c : char) : bool :=
  (((9 <=? c) && (c <=? 13)) || ((28 <=? c) && (c <=? 32)))%N.

(** The Arabic letters U+0621 to U+063A and U+0641 to U+064A, and the
    Arabic-Indic digits U+0660 to U+0669. *)
Definition arabic_letter (c : char) : bool :=
  (((1569 <=? c) && (c <=? 1594)) || ((1601 <=? c) && (c <=? 1610)))%N.
Definition arabic_indic_digit (c : char) : bool :=
  ((1632 <=? c) && (c <=? 1641))%N.

Record unicode_ok (U : unicode) : Prop := {
  isdigit_ascii : forall c, (c < 128)%N -> isdigit U c = ascii_digit c;
  isalnum_ascii :
    forall c, (c < 128)%N -> isalnum U c = ascii_digit c || ascii_alpha c;
  isspace_ascii : forall c, (c < 128)%N -> isspace U c = ascii_space c;
  todecimal_ascii :
    forall c, (c < 128)%N ->
      todecimal U c = if ascii_digit c then Some (c - 48)%N else None;
  isspace_not_alnum : forall c, isspace U c = true -> isalnum U c = false;
  (** U+2010 to U+2027 are dashes, quotes and other punctuation. *)
  isdigit_punctuation :
    forall c, (8208 <= c <= 8231)%N -> isdigit U c = false;
  isalnum_arabic : forall c, arabic_letter c = true -> isalnum U c = true;
  isdigit_arabic_indic :
    forall c, arabic_indic_digit c = true ->
      isdigit U c = true /\ todecimal U c = Some (c - 1632)%N }.

(** A small part of the database, with which the model runs: ASCII, the
    Arabic letters and the Arabic-Indic digits; every other code point is
    in no class. *)
Definition small_unicode : unicode := {|
  isdigit c := ascii_digit c || arabic_indic_digit c;
  isalnum c :=
    ascii_digit c || ascii_alpha c || arabic_letter c || arabic_indic_digit c;
  isspace c := ascii_space c;
  todecimal c :=
    if ascii_digit c then Some (c - 48)%N
    else if arabic_indic_digit c then Some (c - 1632)%N
    else None |}.

(** ** The string methods the program calls *)

Fixpoint dropwhile (p : char -> bool) (s : str) : str :=
  match s with
  | [] => []
  | c :: s' => if p c then dropwhile p s' else s
  end.

Definition rdropwhile (p : char -> bool) (s : str) : str :=
  rev (dropwhile p (rev s)).

(** [s.strip()]: leading and trailing whitespace removed. *)
Definition strip (U : unicode) (s : str) : str :=
  rdropwhile (isspace U) (dropwhile (isspace U) s).

(** [s.replace(old, new)] for one-character [old] and [new]. *)
Definition replace (old new : char) (s : str) : str :=
  map (fun c => if (c =? old)%N then new else c) s.

(** [ch in t] for a character [ch] and a string [t]. *)
Definition char_in (c : char) (t : str) : bool :=
  existsb (fun d => (c =? d)%N) t.

(** [s.startswith(prefix)] *)
Fixpoint startswith (s prefix : str) {struct prefix} : bool :=
  match prefix, s with
  | [], _ => true
  | _ :: _, [] => false
  | p :: prefix', c :: s' => (c =? p)%N && startswith s' prefix'
  end.

(** ** Text files *)

(** The text layer of [open(path, "r")] reads with universal newlines:
    ["\r\n"] and a lone ["\r"] come out as ["\n"].  [pendingcr] says that
    the character before was a ["\r"]. *)
Fixpoint universal_newlines (pendingcr : bool) (s : str) : str :=
  match s with
  | [] => []
  | c :: r =>
      if (c =? 13)%N then 10%N :: universal_newlines true r
      else if (c =? 10)%N && pendingcr then universal_newlines false r
      else c :: universal_newlines false r
  end.

(** [for line in f]: the lines of the text, each with its ["\n"], the
    last one without if the text does not end in one. *)
Fixpoint readlines (s : str) : list str :=
  match s with
  | [] => []
  | c :: r =>
      if (c =? 10)%N then [c] :: readlines r
      else match readlines r with
           | [] => [[c]]
           | line :: rest => (c :: line) :: rest
           end
  end.

(** [s.split(sep)] for a one-character [sep]. *)
Fixpoint str_split (sep : char) (s : str) : list str :=
  match s with
  | [] => [[]]
  | c :: r =>
      if (c =? sep)%N then [] :: str_split sep r
      else match str_split sep r with
           | [] => [[c]]
           | part :: parts => (c :: part) :: parts
           end
  end.

(** ** Exceptions *)

(** Instances of [Exception]: [ValueError], and any other class by name.
    ([KeyboardInterrupt] and [SystemExit] are not instances of [Exception]
    and are outside the model.) *)
Inductive exception :=
| ValueError (msg : str)
| OtherError (cls msg : str).

Definition is_ValueError (e : exception) : bool :=
  match e with ValueError _ => true | OtherError _ _ => false end.

(** A computation that returns a value or raises. *)
Definition result (A : Type) : Type := exception + A.
Definition ret {A} (a : A) : result A := inr a.
Definition raise {A} (e : exception) : result A := inl e.
Definition bind {A B} (k : A -> result B) (m : result A) : result B :=
  match m with inl e => inl e | inr a => k a end.

(** [x ← m; k] runs [m] and, unless it raised, [k] on its value. *)
#[global] Instance result_ret : MRet result := @ret.
#[global] Instance result_bind : MBind result := @bind.

(** ** Floats: IEEE 754 binary64, round to nearest even *)

Definition float := spec_float.
Definition prec : Z := 53.
Definition emax : Z := 1024.

Definition fsub : float -> float -> float := SFsub prec emax.
Definition fmul : float -> float -> float := SFmul prec emax.
Definition fdiv : float -> float -> float := SFdiv prec emax.
Definition fadd : float -> float -> float := SFadd prec emax.
Definition fltb : float -> float -> bool := SFltb.

Definition nan : float := S754_nan.
Definition isnan (f : float) : bool :=
  match f with S754_nan => true | _ => false end.
Definition isfinite (f : float) : bool :=
  match f with S754_zero _ | S754_finite _ _ _ => true | _ => false end.

(** The double nearest to [(-1)^neg * n / 10^k]. *)
Definition round_decimal (neg : bool) (n : N) (k : nat) : float :=
  match n with
  | N0 => S754_zero neg
  | Npos m =>
      let '(mz, ez, lz) :=
        SFdiv_core_binary prec emax (Zpos m) 0 (10 ^ Z.of_nat k) 0 in
      binary_round_aux prec emax neg mz ez lz
  end.

(** An integer as a double ([float(i)] for the small constants the
    program writes, which are exact). *)
Definition float_of_Z (z : Z) : float := binary_normalize prec emax z 0 false.

(** ** [float(s)] for a string [s] *)

(** CPython first maps the string to ASCII
    ([_PyUnicode_TransformDecimalAndSpaceToASCII]): an ASCII string is
    taken as it is; otherwise non-ASCII whitespace becomes a space, a
    non-ASCII decimal digit the ASCII digit of its value, and the string
    is cut after the first other character, which becomes ['?']. *)
Fixpoint transform_decimal_and_space (U : unicode) (s : str) : str :=
  match s with
  | [] => []
  | c :: r =>
      if (c <? 127)%N then c :: transform_decimal_and_space U r
      else if isspace U c then 32%N :: transform_decimal_and_space U r
      else match todecimal U c with
           | Some d => (48 + d)%N :: transform_decimal_and_space U r
           | None => [63%N]
           end
  end.

Definition to_ascii (U : unicode) (s : str) : str :=
  if forallb (fun c => (c <? 128)%N) s then s
  else transform_decimal_and_space U s.

(** [Py_ISSPACE]: the whitespace [float] strips at both ends. *)
Definition c_isspace (c : char) : bool :=
  (((9 <=? c) && (c <=? 13)) || (c =? 32))%N.

Fixpoint span_digits (s : str) : list N * str :=
  match s with
  | [] => ([], [])
  | c :: s' =>
      if ascii_digit c
      then let '(ds, r) := span_digits s' in ((c - 48)%N :: ds, r)
      else ([], s)
  end.

(** The number written by a sequence of decimal digits. *)
Definition digits_value (ds : list N) : N :=
  fold_left (fun acc d => (10 * acc + d)%N) ds 0%N.

Definition invalid_literal (s : str) : exception :=
  ValueError (lit "could not convert string to float: " ++ s).

(** The grammar covers what the callers of this model can pass: an
    optional sign, digits, at most one point, at least one digit.  The
    spellings with an exponent, with underscores, and [inf]/[nan] all need
    a letter or ['_'], and are rejected here; [parse_price] removes such
    characters before it calls [float] (see [cleaned_alphabet]). *)
Definition float_of_str (U : unicode) (s : str) : result float :=
  let a := rdropwhile c_isspace (dropwhile c_isspace (to_ascii U s)) in
  let '(neg, body) :=
    match a with
    | 45%N :: r => (true, r)
    | 43%N :: r => (false, r)
    | _ => (false, a)
    end in
  let '(ip, r1) := span_digits body in
  let '(fp, r2) :=
    match r1 with
    | 46%N :: r => span_digits r
    | _ => ([], r1)
    end in
  match r2, ip ++ fp with
  | [], _ :: _ =>
      ret (round_decimal neg (digits_value (ip ++ fp)) (length fp))
  | _, _ => raise (invalid_literal s)
  end.

(** ** Values met in a DataFrame cell *)
Inductive value :=
| VNone
| VStr (s : str)
| VFloat (f : float)
| VInt (z : Z)
| VBool (b : bool).

End Py.

(* ================================================================== *)
(** * scraper.py                                                        *)
(* ================================================================== *)

Module Scraper.
Import Py.

(** A [pathlib.Path] by its components; [Path()] has none and names the
    working directory ['.']. *)
Definition Path := list str.
Definition Path_here : Path := [].
Definition joinpath (p : Path) (name : str) : Path := p ++ [name].

(** [bool(p)]: pathlib paths define neither [__bool__] nor [__len__], so
    every path is true. *)
Definition Path_bool (p : Path) : bool := true.

Record ScraperConfig := {
  output_dir : Path;
  combined_filename : str;
  max_scroll_cycles : Z;
  rounds_stable : Z;
  scroll_delay_min : float;
  scroll_delay_max : float;
  workers : Z;
  category_file : Path;
  locations_file : Path;
  user_agents : list str;
  log_dir : Path }.

(** ** Records *)

(** What the DOM query returns for one product card. *)
Record Card := {
  card_seen_order : Z;
  card_name : str;
  card_quantity : str;
  card_price : str;
  card_old_price : str;
  card_image_url : str;
  card_out_of_stock : bool;
  card_sku : str }.

(** A row of a per-task table.  [old_price] is optional in the data
    model: a cell read back from storage may hold no string. *)
Record ProductRecord := {
  seen_order : Z;
  name : str;
  quantity : str;
  price : str;
  old_price : value;
  image_url : str;
  out_of_stock : bool;
  sku : str;
  category_url : str;
  location_used : str;
  timestamp : str }.

Definition DataFrame := list ProductRecord.

(** [df.empty] *)
Definition empty (df : DataFrame) : bool :=
  match df with [] => true | _ :: _ => false end.

(** ** Storage *)

Inductive node :=
| Dir
| Parquet (rows : DataFrame).

(** The file system: whether the working directory still exists, and the
    entries by path. *)
Record FS := {
  cwd_exists : bool;
  entries : gmap Path node }.

(** [p.exists()]: [Path()] is ['.'] and exists when the working directory
    does.  (On Linux ['.'] is still found after the directory was removed:
    the runs of the program are those with [cwd_exists] true.) *)
Definition Path_exists (fs : FS) (p : Path) : bool :=
  match p with
  | [] => cwd_exists fs
  | _ :: _ => match entries fs !! p with Some _ => true | None => false end
  end.

(** [d.mkdir(parents=True, exist_ok=True)]; only [d] itself is tracked. *)
Definition mkdir (fs : FS) (d : Path) : result FS :=
  match entries fs !! d with
  | Some Dir => ret fs
  | Some (Parquet _) => raise (OtherError (lit "FileExistsError") [])
  | None => ret {| cwd_exists := cwd_exists fs;
                   entries := <[d := Dir]> (entries fs) |}
  end.

(** [df.to_parquet(p, index=False)]; the write is taken to succeed. *)
Definition to_parquet (fs : FS) (p : Path) (df : DataFrame) : FS :=
  {| cwd_exists := cwd_exists fs;
     entries := <[p := Parquet df]> (entries fs) |}.

(** ** Console output *)
Inductive message :=
| NoProductsFound
| SavedRows (n : nat) (p : Path)
| NoParquetFiles
| FailedToRead (p : Path) (e : exception)
| NoValidDataframes
| CombinedSaved (p : Path)
| NoCategories
| NoLocations
| TotalCombos (n : nat)
| NoDataSaved (cat loc : str)
| ErrorInCombo (cat loc : str) (e : exception)
| NoParquetOutputs.

(** ** [load_list_from_file] *)

Section Load.
(** [open(path, "r", encoding="utf-8")] and the decoding of the file: the
    text, or the exception raised ([FileNotFoundError],
    [UnicodeDecodeError], ...). *)
Variable open_text : Path -> result str.

(** The body of the loop over the lines. *)
Definition load_line (U : unicode) (items : list str) (line : str)
    : list str :=
  let line := strip U line in
  match line with
  | [] => items
  | _ :: _ => if startswith line (lit "#") then items else items ++ [line]
  end.

Definition load_list_from_file (U : unicode) (path : Path)
    : result (list str) :=
  text ← open_text path;
  ret (fold_left (load_line U) (readlines (universal_newlines false text)) []).
End Load.

(** ** [build_browser_context_kwargs] *)

(** The random source: the raw values it will give, and how many were
    taken.  [randbelow n] is [Random._randbelow]: a value below [n], for
    [n > 0]; any value below [n] is the remainder of some raw value. *)
Record rng := {
  draws : nat -> N;
  drawn : nat }.

Definition randbelow (n : N) (r : rng) : N * rng :=
  ((draws r (drawn r) mod n)%N, {| draws := draws r; drawn := S (drawn r) |}).

(** [random.choice(seq)]: [IndexError] on an empty sequence, else
    [seq[randbelow(len(seq))]]. *)
Definition choice {A} (seq : list A) (r : rng) : result A * rng :=
  match seq with
  | [] => (raise (OtherError (lit "IndexError")
                    (lit "Cannot choose from an empty sequence")), r)
  | a :: _ =>
      let '(i, r) := randbelow (N.of_nat (length seq)) r in
      (ret (nth (N.to_nat i) seq a), r)
  end.

(** [random.randint(a, b)] is [a + randbelow(b - a + 1)]. *)
Definition randint (a b : Z) (r : rng) : Z * rng :=
  let '(i, r) := randbelow (Z.to_N (b - a + 1)) r in ((a + Z.of_N i)%Z, r).

(** The keyword arguments: the viewport, and [user_agent] if the key is
    set. *)
Record context_kwargs := {
  viewport_width : Z;
  viewport_height : Z;
  user_agent : option str }.

Definition build_browser_context_kwargs (config : ScraperConfig) (r : rng)
    : result context_kwargs * rng :=
  let '(ua, r) :=
    match user_agents config with
    | [] => (ret None, r)
    | _ :: _ => let '(ua, r) := choice (user_agents config) r in
                (ua ← ua; ret (Some ua), r)
    end in
  match ua with
  | inl e => (raise e, r)
  | inr ua =>
      let '(width, r) := randint 1200 1600 r in
      let '(height, r) := randint 700 1000 r in
      (ret {| viewport_width := width;
              viewport_height := height;
              user_agent := match ua with
                            | Some ((_ :: _) as ua) => Some ua
                            | _ => None
                            end |}, r)
  end.

(** ** The page helpers *)

(** [page.locator(selector)] and [locator.first]. *)
Inductive locator :=
| Locator (selector : str)
| First (l : locator).

(** What the helpers print. *)
Inductive note :=
| SettingLocation (address : str)
| CouldNotSetLocation.

Section Page.
(** The browser page with the clock and the random source.  A call on it
    returns or raises, and leaves the page in a new state either way. *)
Context {World : Type}.
Variable is_visible : locator -> Z -> World -> result bool * World.
Variable click : locator -> World -> result unit * World.
Variable wait_for : locator -> Z -> World -> result unit * World.
Variable fill : locator -> str -> World -> result unit * World.
Variable press : locator -> str -> World -> result unit * World.
Variable sleep : float -> World -> result unit * World.
Variable random : World -> float * World.

(** A helper runs on the page and the console. *)
Definition page (A : Type) : Type :=
  World * list note -> result A * (World * list note).

Definition page_ret {A} (a : A) : page A := fun s => (ret a, s).
Definition page_bind {A B} (k : A -> page B) (m : page A) : page B :=
  fun s => match m s with
           | (inr a, s) => k a s
           | (inl e, s) => (inl e, s)
           end.
#[local] Instance page_mret : MRet page := @page_ret.
#[local] Instance page_mbind : MBind page := @page_bind.

(** [try: body / except Exception: handler] *)
Definition try_except {A} (body handler : page A) : page A :=
  fun s => match body s with
           | (inl _, s) => handler s
           | (inr a, s) => (inr a, s)
           end.

Definition call {A} (op : World -> result A * World) : page A :=
  fun '(w, out) => let '(r, w) := op w in (r, (w, out)).
Definition print (n : note) : page unit :=
  fun '(w, out) => (ret tt, (w, out ++ [n])).
(** [random.random()] *)
Definition random_random : page float :=
  fun '(w, out) => let '(x, w) := random w in (ret x, (w, out)).

(** [for x in xs: try: body / except Exception: continue], where [body]
    says whether it has returned from the function. *)
Fixpoint for_try (body : str -> page bool) (xs : list str) : page unit :=
  match xs with
  | [] => mret tt
  | x :: rest =>
      returned ← try_except (body x) (mret false);
      if returned : bool then mret tt else for_try body rest
  end.

Definition accept_cookies_if_any : page unit :=
  for_try
    (fun sel =>
       let el := Locator sel in
       visible ← call (is_visible el 3000);
       if visible : bool then
         _ ← call (click el);
         _ ← call (sleep (float_of_Z 1));
         mret true
       else mret false)
    [lit "#CybotCookiebotDialogBodyLevelButtonLevelOptinAllowAll";
     lit "button#CybotCookiebotDialogBodyLevelButtonLevelOptinAllowAll"].

Definition set_location (address : str) : page unit :=
  try_except
    (let addr_sel := lit "div.mat-ripple.address.desktopWidth" in
     let btn_sel := lit "button.btn.appearance-filled" in
     visible ← call (is_visible (Locator addr_sel) 4000);
     _ ← (if visible : bool then
            _ ← call (click (Locator addr_sel));
            call (sleep (float_of_Z 1))
          else mret tt);
     visible ← call (is_visible (Locator btn_sel) 4000);
     _ ← (if visible : bool then
            _ ← call (click (Locator btn_sel));
            call (sleep (float_of_Z 1))
          else mret tt);
     let inp := Locator (lit "input[placeholder='Search for a place']") in
     _ ← call (wait_for inp 5000);
     _ ← print (SettingLocation address);
     _ ← call (fill inp address);
     r ← random_random;
     _ ← call (sleep (fadd (float_of_Z 1) r));
     _ ← call (press inp (lit "ArrowDown"));
     _ ← call (sleep (binary_normalize prec emax 1 (-1) false));
     _ ← call (press inp (lit "Enter"));
     _ ← call (sleep (binary_normalize prec emax 1 (-1) false));
     _ ← call (press inp (lit "Enter"));
     r ← random_random;
     call (sleep (fadd (float_of_Z 3) r)))
    (print CouldNotSetLocation).

Definition click_all_items_filter : page unit :=
  for_try
    (fun xp =>
       let el := Locator (lit "xpath=" ++ xp) in
       visible ← call (is_visible (First el) 4000);
       if visible : bool then
         _ ← call (click (First el));
         r ← random_random;
         _ ← call (sleep (fadd (float_of_Z 1) r));
         mret true
       else mret false)
    [lit "//label[.//span[normalize-space()='All Items']]";
     lit "//span[normalize-space()='All Items']"].
End Page.

(** ** [human_like_scroll] *)

Record scroll_state := {
  last_count : Z;
  stable_rounds : Z }.

(** What one completed cycle did: the count it observed, the loop
    variables after the update, whether it made the small upward scroll
    and whether it left the loop. *)
Record cycle_log := {
  cycle : Z;
  observed : Z;
  after : scroll_state;
  nudged : bool;
  stopped : bool }.

Section Scroll.
(** The browser page together with the clock and the random source.
    Each [page.evaluate] may raise, and so may [time.sleep] (on a negative
    delay). *)
Context {World : Type}.
Variable scroll_to_bottom : World -> result World.
Variable uniform : float -> float -> World -> float * World.
Variable sleep : float -> World -> result World.
Variable count_cards : World -> result (Z * World).
Variable scroll_up : World -> result World.

Definition scroll_update (st : scroll_state) (count : Z) : scroll_state :=
  if (count =? last_count st)%Z
  then {| last_count := last_count st;
          stable_rounds := stable_rounds st + 1 |}
  else {| last_count := count; stable_rounds := 0 |}.

(** The body of the [for] loop. *)
Definition scroll_cycle (config : ScraperConfig) (cyc : Z)
    (st : scroll_state) (w : World) : result (cycle_log * World) :=
  w ← scroll_to_bottom w;
  let '(delay, w) :=
    uniform (scroll_delay_min config) (scroll_delay_max config) w in
  w ← sleep delay w;
  '(count, w) ← count_cards w;
  let st := scroll_update st count in
  '(up, w) ← (if (stable_rounds st =? 1)%Z
              then w ← scroll_up w; ret (true, w)
              else ret (false, w));
  ret ({| cycle := cyc; observed := count; after := st; nudged := up;
          stopped := (rounds_stable config <=? stable_rounds st)%Z |}, w).

(** [for cycle in cycles: ...; if ...: break], with the completed
    cycles recorded in order. *)
Fixpoint scroll_loop (config : ScraperConfig) (cycles : list Z)
    (st : scroll_state) (w : World) : list cycle_log * result World :=
  match cycles with
  | [] => ([], ret w)
  | cyc :: rest =>
      match scroll_cycle config cyc st w with
      | inl e => ([], raise e)
      | inr (entry, w) =>
          if stopped entry then ([entry], ret w)
          else let '(log, r) := scroll_loop config rest (after entry) w in
               (entry :: log, r)
      end
  end.

(** [range(1, n + 1)] *)
Definition range1 (n : Z) : list Z :=
  map (fun i => Z.of_nat i) (seq 1 (Z.to_nat n)).

Definition human_like_scroll (config : ScraperConfig) (w : World)
    : list cycle_log * result World :=
  scroll_loop config (range1 (max_scroll_cycles config))
    {| last_count := 0; stable_rounds := 0 |} w.
End Scroll.

(** ** [extract_products] *)

Definition extract_products (cards : list Card) (category_url location : str)
    (now : str) : DataFrame :=
  match cards with
  | [] => []
  | _ :: _ =>
      map (fun c => {|
        seen_order := card_seen_order c;
        name := card_name c;
        quantity := card_quantity c;
        price := card_price c;
        old_price := VStr (card_old_price c);
        image_url := card_image_url c;
        out_of_stock := card_out_of_stock c;
        sku := card_sku c;
        category_url := category_url;
        location_used := location;
        timestamp := now |}) cards
  end.

(** ** The homepage of the locale *)

Section Locale.
(** [urlparse(url).path], which raises [ValueError] on some malformed
    URLs. *)
Variable urlparse_path : str -> result str.

(** The [try] block that derives the locale from the category URL. *)
Definition locale (category_url : str) : str :=
  match urlparse_path category_url with
  | inr path =>
      match str_split 47%N path with
      | _ :: (_ :: _) as part :: _ => part
      | _ => lit "en-eg"
      end
  | inl _ => lit "en-eg"
  end.

Definition base_url (category_url : str) : str :=
  lit "https://instashop.com/" ++ locale category_url.
End Locale.

(** ** [scrape_one_category_location] *)

(** [ch if ch.isalnum() or ch in " _-" else "_"] for each character, then
    [.strip().replace(" ", "_")]. *)
Definition safe_name (U : unicode) (s : str) : str :=
  replace 32%N 95%N
    (strip U
       (map (fun ch => if isalnum U ch || char_in ch (lit " _-")
                       then ch else 95%N) s)).

(** What a task meets outside the program: the browser session of steps
    1 to 4 (launch, homepage, cookies, location, category page, filter,
    scroll, DOM query, vendor name), which raises or gives the cards and
    the vendor name, and the clock at extraction and at saving. *)
Record TaskEnv := {
  browser : result (list Card * str);
  now_iso : str;
  now_stamp : str }.

Definition out_name (U : unicode) (vendor location ts : str) : str :=
  safe_name U vendor ++ lit "__" ++ safe_name U location ++ lit "__"
    ++ ts ++ lit ".parquet".

(** Returns the file system and the console output after the call, and
    the returned triple or the exception raised. *)
Definition scrape_one_category_location (U : unicode)
    (category_url location : str) (config : ScraperConfig)
    (env : TaskEnv) (fs : FS)
    : FS * list message * result (str * str * Path) :=
  match browser env with
  | inl e => (fs, [], raise e)
  | inr (cards, vendor) =>
      let df := extract_products cards category_url location (now_iso env) in
      if empty df then
        (fs, [NoProductsFound], ret (category_url, location, Path_here))
      else
        match mkdir fs (output_dir config) with
        | inl e => (fs, [], raise e)
        | inr fs =>
            let out_path :=
              joinpath (output_dir config)
                (out_name U vendor location (now_stamp env)) in
            (to_parquet fs out_path df,
             [SavedRows (length df) out_path],
             ret (category_url, location, out_path))
        end
  end.

(** ** [combine_outputs] *)

(** The inner [parse_price]. *)
Definition parse_price (U : unicode) (s : value) : result (option float) :=
  match s with
  | VStr s =>
      let digits :=
        List.filter (fun ch => isdigit U ch || char_in ch (lit ".,-")) s in
      match digits with
      | [] => ret None
      | _ :: _ =>
          match float_of_str U (replace 44%N 46%N digits) with
          | inr f => ret (Some f)
          | inl e => if is_ValueError e then ret None else raise e
          end
      end
  | _ => ret None
  end.

(** The dedup key of [drop_duplicates]. *)
Definition key : Type := str * str * str * str * str.
Definition key_of (r : ProductRecord) : key :=
  (category_url r, location_used r, name r, quantity r, price r).

(** [drop_duplicates(subset=..., keep="first")]: rows in order, a row
    dropped when its key was seen before. *)
Fixpoint drop_duplicates_from (seen : gset key) (rows : DataFrame)
    : DataFrame :=
  match rows with
  | [] => []
  | r :: rest =>
      if decide (key_of r ∈ seen) then drop_duplicates_from seen rest
      else r :: drop_duplicates_from ({[ key_of r ]} ∪ seen) rest
  end.

Definition drop_duplicates (rows : DataFrame) : DataFrame :=
  drop_duplicates_from ∅ rows.

(** A row of the combined table.  The three derived columns are float
    columns, in which pandas writes a missing value as NaN. *)
Record CombinedRow := {
  record : ProductRecord;
  price_numeric : float;
  old_price_numeric : float;
  discount_percent : float }.

(** [Series.apply(parse_price)] on one cell: [None] is stored as NaN. *)
Definition to_cell (o : option float) : float :=
  match o with Some f => f | None => nan end.

Definition notna (f : float) : bool := negb (isnan f).

(** [((old - price) / old * 100).where(old.notna() & price.notna() &
    (old > 0), None)] on one row. *)
Definition discount (price_n old_n : float) : float :=
  if notna old_n && notna price_n && fltb (S754_zero false) old_n
  then fmul (fdiv (fsub old_n price_n) old_n) (float_of_Z 100)
  else nan.

Definition derive_row (U : unicode) (r : ProductRecord) : result CombinedRow :=
  p ← parse_price U (VStr (price r));
  o ← parse_price U (old_price r);
  ret {| record := r;
         price_numeric := to_cell p;
         old_price_numeric := to_cell o;
         discount_percent := discount (to_cell p) (to_cell o) |}.

Fixpoint derive (U : unicode) (rows : DataFrame) : result (list CombinedRow) :=
  match rows with
  | [] => ret []
  | r :: rest =>
      c ← derive_row U r;
      cs ← derive U rest;
      ret (c :: cs)
  end.

Section Combine.
(** [pd.read_parquet], which raises on a file it cannot read.  What it
    reads is taken to be a table with the product columns, as [to_parquet]
    writes them: the frames of the model have the columns by type.  (On a
    frame without them, as a directory without a parquet file reads, the
    code raises [KeyError] after the reading loop; such frames are outside
    the model.) *)
Variable read_parquet : Path -> result DataFrame.

(** The [for] loop that reads the files: the frames read, in order, and
    a message for each file that failed. *)
Fixpoint read_all (parquet_files : list Path)
    : list DataFrame * list message :=
  match parquet_files with
  | [] => ([], [])
  | p :: rest =>
      let '(dfs, out) := read_all rest in
      match read_parquet p with
      | inr df => (df :: dfs, out)
      | inl e => (dfs, FailedToRead p e :: out)
      end
  end.

(** [pd.concat(dfs, ignore_index=True)], then dedup, then the derived
    columns: the table written to the sheet [All_Data]. *)
Definition combined_table (U : unicode) (dfs : list DataFrame)
    : result (list CombinedRow) :=
  derive U (drop_duplicates (concat dfs)).

(** Returns the console output, the table written (if any) and the
    returned path. *)
Definition combine_outputs (U : unicode) (parquet_files : list Path)
    (config : ScraperConfig)
    : result (list message * option (list CombinedRow) * Path) :=
  let out_xlsx := joinpath (output_dir config) (combined_filename config) in
  match parquet_files with
  | [] => ret ([NoParquetFiles], None, out_xlsx)
  | _ :: _ =>
      let '(dfs, out) := read_all parquet_files in
      match dfs with
      | [] => ret (out ++ [NoValidDataframes], None, out_xlsx)
      | _ :: _ =>
          full ← combined_table U dfs;
          ret (out ++ [CombinedSaved out_xlsx], Some full, out_xlsx)
      end
  end.
End Combine.

End Scraper.

(* ================================================================== *)
(** * run_scraper.py                                                    *)
(* ================================================================== *)

Module RunScraper.
Import Py Scraper.

(** [[(cat, loc) for cat in categories for loc in locations]] *)
Definition combos (categories locations : list str) : list (str * str) :=
  flat_map (fun cat => map (fun loc => (cat, loc)) locations) categories.

(** What the result-collection loop builds: the list [parquet_files] and
    the orchestrator's own console output. *)
Record collected := {
  parquet_files : list Path;
  stdout : list message }.

(** The body of the loop over [as_completed]: the [try] around
    [future.result()], with [except Exception]. *)
Definition collect (fs : FS) (acc : collected) (cat loc : str)
    (r : result (str * str * Path)) : collected :=
  match r with
  | inr (_, _, out_path) =>
      if Path_bool out_path && Path_exists fs out_path
      then {| parquet_files := parquet_files acc ++ [out_path];
              stdout := stdout acc |}
      else {| parquet_files := parquet_files acc;
              stdout := stdout acc ++ [NoDataSaved cat loc] |}
  | inl e =>
      {| parquet_files := parquet_files acc;
         stdout := stdout acc ++ [ErrorInCombo cat loc e] |}
  end.

(** The pool and the loop, task by task in completion order: each task
    runs in a process of its own against its own browser, and its result
    is collected once it has completed.  Returns the file system, the
    console output of the workers and what the loop collected. *)
Fixpoint run_pool (U : unicode) (config : ScraperConfig)
    (completed : list (str * str * TaskEnv)) (fs : FS)
    (workers_out : list message) (acc : collected)
    : FS * list message * collected :=
  match completed with
  | [] => (fs, workers_out, acc)
  | (cat, loc, env) :: rest =>
      let '(fs, out, r) :=
        scrape_one_category_location U cat loc config env fs in
      run_pool U config rest fs (workers_out ++ out) (collect fs acc cat loc r)
  end.

(** How [main] ended. *)
Inductive ending :=
| ReturnedEarly
| Combined (passed : list Path)
           (r : result (list message * option (list CombinedRow) * Path)).

Section Main.
(** [pd.read_parquet] on the file system at hand. *)
Variable read_parquet : FS -> Path -> result DataFrame.
(** The executor: for the combos submitted, the tasks in the order in
    which they complete, each with what it meets. *)
Variable as_completed : list (str * str) -> list (str * str * TaskEnv).

(** [main], from the two lists loaded up to the call of
    [combine_outputs]; the summary sheet that follows is not modelled. *)
Definition main (U : unicode) (config : ScraperConfig)
    (categories locations : list str) (fs : FS)
    : result (FS * list message * ending) :=
  fs ← mkdir fs (output_dir config);
  fs ← mkdir fs (log_dir config);
  match categories, locations with
  | [], _ => ret (fs, [NoCategories], ReturnedEarly)
  | _, [] => ret (fs, [NoLocations], ReturnedEarly)
  | _, _ =>
      let combos := combos categories locations in
      let total := length combos in
      let '(fs, _, got) :=
        run_pool U config (as_completed combos) fs []
          {| parquet_files := []; stdout := [TotalCombos total] |} in
      match parquet_files got with
      | [] => ret (fs, stdout got ++ [NoParquetOutputs], ReturnedEarly)
      | _ :: _ =>
          ret (fs, stdout got,
               Combined (parquet_files got)
                 (combine_outputs (read_parquet fs) U
                    (parquet_files got) config))
      end
  end.
End Main.

End RunScraper.

(* ================================================================== *)
(** * Definitions taken from the wording of the specification          *)
(* ================================================================== *)

Module Spec.
Import Py.

(** "maps every character outside [[A-Za-z0-9 _-]] to [_], then replaces
    spaces with [_]" *)
Definition allowed (c : char) : bool :=
  ascii_digit c || ascii_alpha c || char_in c (lit " _-").

Definition sanitize (s : str) : str :=
  replace 32 95 (map (fun ch => if allowed ch then ch else 95%N) s).

(** "If the count is unchanged from the previous cycle, increment
    [stable_rounds]; otherwise reset [stable_rounds] to 0 and update
    [last_count]"; the upward scroll on [stable_rounds == 1]; the stop at
    [stable_rounds >= rounds_stable].  [stabilizer_rule rs st log] says
    that the cycles of [log], started from the loop variables [st], each
    follow these rules, and that no cycle follows one that stopped. *)
Fixpoint stabilizer_rule (rounds_stable : Z) (st : Scraper.scroll_state)
    (log : list Scraper.cycle_log) : Prop :=
  match log with
  | [] => True
  | e :: rest =>
      let count := Scraper.observed e in
      let st' := Scraper.after e in
      (count = Scraper.last_count st ->
         Scraper.stable_rounds st' = (Scraper.stable_rounds st + 1)%Z
         /\ Scraper.last_count st' = Scraper.last_count st)
      /\ (count <> Scraper.last_count st ->
            Scraper.stable_rounds st' = 0%Z
            /\ Scraper.last_count st' = count)
      /\ (Scraper.nudged e = true <-> Scraper.stable_rounds st' = 1%Z)
      /\ (Scraper.stopped e = true
          <-> (rounds_stable <= Scraper.stable_rounds st')%Z)
      /\ (Scraper.stopped e = true -> rest = [])
      /\ stabilizer_rule rounds_stable st' rest
  end.

End Spec.

(** Auxiliary notions used in the statements below. *)

(** A string of ASCII characters only. *)
Definition ascii_str (s : Py.str) : Prop := Forall (fun c => (c < 128)%N) s.

(** [s.strip(" ")]: only spaces removed at both ends. *)
Definition strip_spaces (s : Py.str) : Py.str :=
  Py.rdropwhile (fun c => (c =? 32)%N) (Py.dropwhile (fun c => (c =? 32)%N) s).

(** The keys of the rows of a table, as a set. *)
Definition keys (rows : Scraper.DataFrame) : gset Scraper.key :=
  list_to_set (map Scraper.key_of rows).

(** What one completed task adds to [parquet_files], given whether the
    working directory exists. *)
Definition task_files (U : Py.unicode) (config : Scraper.ScraperConfig)
    (cwd : bool) (t : Py.str * Py.str * Scraper.TaskEnv) : list Scraper.Path :=
  let '(cat, loc, env) := t in
  match Scraper.browser env with
  | inl _ => []
  | inr ([], _) => if cwd then [Scraper.Path_here] else []
  | inr (_ :: _, vendor) =>
      [Scraper.joinpath (Scraper.output_dir config)
         (Scraper.out_name U vendor loc (Scraper.now_stamp env))]
  end.

(** What one completed task makes the orchestrator print. *)
Definition task_console (cwd : bool)
    (t : Py.str * Py.str * Scraper.TaskEnv) : list Scraper.message :=
  let '(cat, loc, env) := t in
  match Scraper.browser env with
  | inl e => [Scraper.ErrorInCombo cat loc e]
  | inr ([], _) => if cwd then [] else [Scraper.NoDataSaved cat loc]
  | inr (_ :: _, _) => []
  end.

(** A task whose browser session raises. *)
Definition raises (t : Py.str * Py.str * Scraper.TaskEnv) : bool :=
  match Scraper.browser (snd t) with inl _ => true | inr _ => false end.

(** The characters of a sanitized name: alphanumeric, [_] or [-]; no
    space, no [/], no whitespace. *)
Definition name_char (U : Py.unicode) (c : Py.char) : Prop :=
  (Py.isalnum U c = true \/ c = 95%N \/ c = 45%N)
  /\ c <> 32%N /\ c <> 47%N /\ Py.isspace U c = false.

(** The files [pd.read_parquet] can read, and the frames read from a list
    of files, in order. *)
Definition readable (read_parquet : Scraper.Path -> Py.result Scraper.DataFrame)
    (p : Scraper.Path) : bool :=
  match read_parquet p with inr _ => true | inl _ => false end.

Definition frames_read
    (read_parquet : Scraper.Path -> Py.result Scraper.DataFrame)
    (files : list Scraper.Path) : list Scraper.DataFrame :=
  flat_map (fun p => match read_parquet p with
                     | inr df => [df]
                     | inl _ => []
                     end) files.

(** The table [combine_outputs] writes for the frames it has read. *)
Definition table_of (U : Py.unicode) (dfs : list Scraper.DataFrame)
    : option (list Scraper.CombinedRow) :=
  match dfs with
  | [] => None
  | _ :: _ => match Scraper.combined_table U dfs with
              | inr full => Some full
              | inl _ => None
              end
  end.

(** The keys of the table written, if one was written. *)
Definition table_keys (t : option (list Scraper.CombinedRow))
    : gset Scraper.key :=
  match t with
  | Some full => keys (map Scraper.record full)
  | None => ∅
  end.

(** The table in the result of [combine_outputs]. *)
Definition written
    (r : Py.result (list Scraper.message * option (list Scraper.CombinedRow)
                    * Scraper.Path))
    : option (list Scraper.CombinedRow) :=
  match r with
  | inr (_, t, _) => t
  | inl _ => None
  end.

(** The number of ['.'] and [','] in a string. *)
Definition separators (s : Py.str) : nat :=
  length (List.filter (fun ch => (ch =? 46)%N || (ch =? 44)%N) s).

(** A list written to a file, one item on a line. *)
Definition unlines (items : list Py.str) : Py.str :=
  flat_map (fun item => item ++ [10%N]) items.

(** What [load_list_from_file] keeps of a stripped line. *)
Definition listed (line : Py.str) : bool :=
  match line with
  | [] => false
  | c :: _ => negb (c =? 35)%N
  end.



(** Sample data for running the model. *)
Module Sample.
Import Py Scraper.

Definition config : ScraperConfig := {|
  output_dir := [lit "out"];
  combined_filename := lit "combined.xlsx";
  max_scroll_cycles := 40;
  rounds_stable := 3;
  scroll_delay_min := float_of_Z 1;
  scroll_delay_max := float_of_Z 2;
  workers := 2;
  category_file := [lit "categories.txt"];
  locations_file := [lit "locations.txt"];
  user_agents := [];
  log_dir := [lit "logs"] |}.

(** A file system with the output directory made and nothing in it. *)
Definition fs0 : FS := {|
  cwd_exists := true;
  entries := {[ output_dir config := Dir ]} |}.

Definition card : Card := {|
  card_seen_order := 1;
  card_name := lit "Milk";
  card_quantity := lit "1 L";
  card_price := lit "EGP 45.50";
  card_old_price := lit "";
  card_image_url := lit "https://cdn.example/milk.png";
  card_out_of_stock := false;
  card_sku := lit "sku-1" |}.

Definition env_of (b : result (list Card * str)) : TaskEnv := {|
  browser := b;
  now_iso := lit "2025-01-01T10:00:00";
  now_stamp := lit "20250101_100000" |}.

(** A task that finds nothing, one that finds a product, one that fails. *)
Definition empty_env : TaskEnv := env_of (inr ([], lit "Sarai Market")).
Definition full_env : TaskEnv := env_of (inr ([card], lit "Sarai Market")).
Definition failing_env : TaskEnv :=
  env_of (inl (OtherError (lit "TimeoutError") (lit "Page.goto: Timeout"))).

(** "Cairo" in Arabic letters (alef, lam, qaf, alef, heh, reh, teh
    marbuta), as a line of the locations file may give it. *)
Definition cairo_arabic : str := [1575; 1604; 1602; 1575; 1607; 1585; 1577]%N.

Definition sale_card : Card := {|
  card_seen_order := 2;
  card_name := lit "Cheese";
  card_quantity := lit "250 g";
  card_price := lit "EGP 75";
  card_old_price := lit "EGP 100";
  card_image_url := lit "https://cdn.example/cheese.png";
  card_out_of_stock := false;
  card_sku := lit "sku-2" |}.

(** A page that shows the counts of a list, one in each cycle, and no
    card once the list is used up. *)
Definition listed_count (w : list Z) : result (Z * list Z) :=
  match w with
  | [] => inr (0%Z, [])
  | c :: r => inr (c, r)
  end.

Definition scroll_listed (counts : list Z) : list cycle_log * result (list Z) :=
  human_like_scroll (fun w => inr w) (fun a _ w => (a, w)) (fun _ w => inr w)
    listed_count (fun w => inr w) config counts.

(** A page that grows by one card in every cycle and never settles. *)
Definition scroll_growing : list cycle_log * result Z :=
  human_like_scroll (fun w => inr w) (fun a _ w => (a, w)) (fun _ w => inr w)
    (fun w => inr ((w + 1)%Z, (w + 1)%Z)) (fun w => inr w) config 0%Z.

(** A page whose third count fails. *)
Definition scroll_failing : list cycle_log * result Z :=
  human_like_scroll (fun w => inr w) (fun a _ w => (a, w)) (fun _ w => inr w)
    (fun w => if (w =? 2)%Z
              then inl (OtherError (lit "Error") (lit "Target closed"))
              else inr ((w + 1)%Z, (w + 1)%Z))
    (fun w => inr w) config 0%Z.


(** A reader of stored tables, for running [combine_outputs]: the table
    at the path, or an error. *)
Definition read_stored (fs : FS) (p : Path) : result DataFrame :=
  match entries fs !! p with
  | Some (Parquet rows) => inr rows
  | _ => inl (OtherError (lit "ArrowInvalid") [])
  end.

(** Two artifacts that share a product. *)
Definition stored : FS := {|
  cwd_exists := true;
  entries :=
    <[ [lit "a"] := Parquet (extract_products [card] (lit "c1") (lit "Cairo")
                               (lit "2025-01-01T10:00:00")) ]>
    (<[ [lit "b"] := Parquet (extract_products [card; sale_card] (lit "c1")
                                (lit "Cairo") (lit "2025-01-01T10:05:00")) ]>
     ∅) |}.

(** A locations file with a comment, a blank line, Windows ends of line
    and no end of line at its end, and a copy of what loads from it. *)
Definition locations_text : str :=
  lit "# cities" ++ [13; 10]%N ++ lit "  Cairo " ++ [13; 10; 13; 10]%N
    ++ lit "Giza #1" ++ [10]%N ++ lit "Al Ekbal".

Definition open_sample (p : Path) : result str :=
  if decide (p = [lit "locations.txt"]) then inr locations_text
  else if decide (p = [lit "copy.txt"])
       then inr (unlines [lit "Cairo"; lit "Giza #1"; lit "Al Ekbal"])
       else inl (OtherError (lit "FileNotFoundError") []).

End Sample.

(* ================================================================== *)
(** * Properties                                                        *)
(* ================================================================== *)

Import Py Scraper RunScraper.

(** ** The runtime model *)

(** Decide a goal on the ASCII classes by comparing the code point with
    the bounds of the ranges. *)
Ltac ascii_classes :=
  unfold ascii_space, ascii_digit, ascii_alpha, c_isspace, arabic_letter,
    arabic_indic_digit in *;
  repeat match goal with
         | |- context [(?a <=? ?b)%N] => destruct (N.leb_spec a b)
         | |- context [(?a =? ?b)%N] => destruct (N.eqb_spec a b)
         | H : context [(?a <=? ?b)%N] |- _ => destruct (N.leb_spec a b)
         | H : context [(?a =? ?b)%N] |- _ => destruct (N.eqb_spec a b)
         end;
  simpl in *; try reflexivity; try discriminate; try lia.

(** The classes as ranges of code points. *)
Lemma class_ranges (c : char) :
  (ascii_digit c = true <-> (48 <= c <= 57)%N)
  /\ (ascii_alpha c = true <-> (65 <= c <= 90 \/ 97 <= c <= 122)%N)
  /\ (ascii_space c = true <-> (9 <= c <= 13 \/ 28 <= c <= 32)%N)
  /\ (arabic_letter c = true <-> (1569 <= c <= 1594 \/ 1601 <= c <= 1610)%N)
  /\ (arabic_indic_digit c = true <-> (1632 <= c <= 1641)%N).
Proof.
  unfold ascii_digit, ascii_alpha, ascii_space, arabic_letter,
    arabic_indic_digit.
  rewrite ?orb_true_iff, ?andb_true_iff, ?N.leb_le. tauto.
Qed.

(** Settle the class of a character from the bounds in the context. *)
Ltac class_false :=
  apply not_true_is_false; intros ?Hclass;
  repeat match goal with
         | H : _ = true |- _ => apply class_ranges in H
         end; lia.

Lemma small_unicode_ok : unicode_ok small_unicode.
Proof.
  split; simpl.
  - intros c Hc. replace (arabic_indic_digit c) with false by
      (symmetry; class_false). apply orb_false_r.
  - intros c Hc. replace (arabic_indic_digit c) with false by
      (symmetry; class_false).
    replace (arabic_letter c) with false by (symmetry; class_false).
    now rewrite !orb_false_r.
  - reflexivity.
  - intros c Hc. replace (arabic_indic_digit c) with false by
      (symmetry; class_false). now destruct (ascii_digit c).
  - intros c Hc.
    replace (ascii_digit c) with false by (symmetry; class_false).
    replace (ascii_alpha c) with false by (symmetry; class_false).
    replace (arabic_letter c) with false by (symmetry; class_false).
    replace (arabic_indic_digit c) with false by (symmetry; class_false).
    reflexivity.
  - intros c Hc.
    replace (ascii_digit c) with false by (symmetry; class_false).
    replace (arabic_indic_digit c) with false by (symmetry; class_false).
    reflexivity.
  - intros c Hc. rewrite Hc. now rewrite orb_true_r.
  - intros c Hc. rewrite Hc.
    replace (ascii_digit c) with false by (symmetry; class_false).
    auto.
Qed.

(** [float] raises nothing but [ValueError]. *)
Lemma float_of_str_raises (U : unicode) (s : str) (e : exception) :
  float_of_str U s = inl e -> is_ValueError e = true.
Proof.
  unfold float_of_str.
  repeat match goal with
         | |- context [let '(_, _) := ?x in _] => destruct x
         | |- context [match ?x with _ => _ end] => destruct x
         end; simpl; unfold ret, raise; intros H; inversion H; reflexivity.
Qed.

Section Rounding.
(** Rounding a non-negative mantissa never gives NaN. *)

Lemma iter_pos_invariant {A} (P : A -> Prop) (f : A -> A) :
  (forall x, P x -> P (f x)) -> forall n x, P x -> P (SpecFloat.iter_pos f n x).
Proof.
  intros Hf. induction n as [n IH | n IH |]; simpl; intros x Hx; auto.
Qed.

Lemma shr_1_nonneg (mrs : shr_record) :
  (0 <= shr_m mrs)%Z -> (0 <= shr_m (shr_1 mrs))%Z.
Proof.
  destruct mrs as [m r t]. simpl.
  destruct m as [| [p | p |] | [p | p |]]; simpl; lia.
Qed.

Lemma shr_fexp_nonneg (m e : Z) (l : location) :
  (0 <= m)%Z -> (0 <= shr_m (fst (shr_fexp prec emax m e l)))%Z.
Proof.
  intros Hm. unfold shr_fexp, shr.
  assert (H0 : (0 <= shr_m (shr_record_of_loc m l))%Z)
    by (destruct l as [| []]; exact Hm).
  destruct (fexp prec emax (Zdigits2 m + e) - e)%Z; simpl; auto.
  apply iter_pos_invariant with (P := fun x => (0 <= shr_m x)%Z); auto.
  apply shr_1_nonneg.
Qed.

Lemma round_nearest_even_nonneg (m : Z) (l : location) :
  (0 <= m)%Z -> (0 <= round_nearest_even m l)%Z.
Proof.
  intros Hm. destruct l as [| []]; simpl; try lia.
  destruct (Z.even m); lia.
Qed.

Lemma binary_round_aux_not_nan (sx : bool) (mx ex : Z) (lx : location) :
  (0 <= mx)%Z -> isnan (binary_round_aux prec emax sx mx ex lx) = false.
Proof.
  intros Hm. unfold binary_round_aux.
  pose proof (shr_fexp_nonneg mx ex lx Hm) as H1.
  destruct (shr_fexp prec emax mx ex lx) as [mrs1 e1]. simpl in H1.
  pose proof (shr_fexp_nonneg
                (round_nearest_even (shr_m mrs1) (loc_of_shr_record mrs1))
                e1 loc_Exact
                (round_nearest_even_nonneg _ _ H1)) as H2.
  destruct (shr_fexp prec emax _ e1 loc_Exact) as [mrs2 e2]. simpl in H2.
  destruct (shr_m mrs2); [reflexivity | | lia].
  destruct (e2 <=? emax - prec)%Z; reflexivity.
Qed.

Lemma round_decimal_not_nan (neg : bool) (n : N) (k : nat) :
  isnan (round_decimal neg n k) = false.
Proof.
  destruct n as [| m]; [reflexivity |]. unfold round_decimal.
  destruct (SFdiv_core_binary prec emax (Z.pos m) 0 (10 ^ Z.of_nat k) 0)
    as [[mz ez] lz] eqn:E.
  apply binary_round_aux_not_nan.
  unfold SFdiv_core_binary in E.
  set (e' := Z.min _ _) in E. set (m' := match (0 - 0 - e')%Z with
                                         | Z0 => _ | Zpos _ => _ | Zneg _ => _
                                         end) in E.
  assert (Hm' : (0 <= m')%Z).
  { subst m'. destruct (0 - 0 - e')%Z; try lia.
    apply Z.shiftl_nonneg. lia. }
  pose proof (Z.div_pos m' (10 ^ Z.of_nat k) Hm'
                ltac:(apply Z.pow_pos_nonneg; lia)) as Hq.
  unfold Z.div in Hq.
  destruct (Z.div_eucl m' (10 ^ Z.of_nat k)) as [q r].
  inversion E; subst. exact Hq.
Qed.
(** Below the range bound, rounding gives a finite double. *)

Lemma digits2_pos_lower (p : positive) :
  (2 ^ (Z.pos (digits2_pos p) - 1) <= Z.pos p)%Z.
Proof.
  induction p as [p IH | p IH |]; simpl digits2_pos;
    [change (Z.pos p~1) with (2 * Z.pos p + 1)%Z
    | change (Z.pos p~0) with (2 * Z.pos p)%Z
    | simpl; lia];
    rewrite Pos2Z.inj_succ;
    replace (Z.succ (Z.pos (digits2_pos p)) - 1)%Z
      with (Z.succ (Z.pos (digits2_pos p) - 1)) by lia;
    rewrite Z.pow_succ_r by lia; lia.
Qed.

Lemma Zdigits2_bound (m k : Z) :
  (0 <= k)%Z -> (0 <= m < 2 ^ k)%Z -> (Zdigits2 m <= k)%Z.
Proof.
  intros Hk [Hm0 Hm]. destruct m as [| p | p]; simpl; [lia | | lia].
  destruct (Z_le_gt_dec (Z.pos (digits2_pos p)) k) as [H | H]; [exact H |].
  pose proof (digits2_pos_lower p) as Hl.
  assert (2 ^ k <= 2 ^ (Z.pos (digits2_pos p) - 1))%Z
    by (apply Z.pow_le_mono_r; lia).
  lia.
Qed.

Lemma shr_1_half (mrs : shr_record) :
  (0 <= shr_m mrs)%Z ->
  (0 <= shr_m (shr_1 mrs) /\ 2 * shr_m (shr_1 mrs) <= shr_m mrs)%Z.
Proof.
  destruct mrs as [m r t]. simpl.
  destruct m as [| [p | p |] | [p | p |]]; simpl; lia.
Qed.

Lemma iter_shr_1_bound (p : positive) (mrs : shr_record) :
  (0 <= shr_m mrs)%Z ->
  (0 <= shr_m (SpecFloat.iter_pos shr_1 p mrs)
   /\ 2 ^ Z.pos p * shr_m (SpecFloat.iter_pos shr_1 p mrs) <= shr_m mrs)%Z.
Proof.
  revert mrs. induction p as [p IH | p IH |]; intros mrs Hm; simpl.
  - destruct (shr_1_half mrs Hm) as [H0 H1].
    destruct (IH _ H0) as [H2 H3]. destruct (IH _ H2) as [H4 H5].
    split; [exact H4 |].
    change (Z.pos p~1) with (2 * Z.pos p + 1)%Z.
    replace (2 * Z.pos p + 1)%Z with (Z.pos p + Z.pos p + 1)%Z by lia.
    rewrite !Z.pow_add_r by lia.
    assert (0 < 2 ^ Z.pos p)%Z by (apply Z.pow_pos_nonneg; lia). nia.
  - destruct (IH _ Hm) as [H2 H3]. destruct (IH _ H2) as [H4 H5].
    split; [exact H4 |].
    change (Z.pos p~0) with (2 * Z.pos p)%Z.
    replace (2 * Z.pos p)%Z with (Z.pos p + Z.pos p)%Z by lia.
    rewrite !Z.pow_add_r by lia.
    assert (0 < 2 ^ Z.pos p)%Z by (apply Z.pow_pos_nonneg; lia). nia.
  - destruct (shr_1_half mrs Hm) as [H0 H1]. split; [exact H0 | lia].
Qed.

(** A mantissa [m] at exponent [e] with [m * 2^e < 2^B]: after the shift
    the bound still holds and the exponent is at most [max e (B - 53)]. *)
Lemma shr_fexp_bound (m e : Z) (l : location) (B : Z) :
  (0 <= m)%Z -> (m < 2 ^ (B - e) \/ m = 0)%Z -> (-1021 <= B)%Z ->
  let '(mrs, e1) := shr_fexp prec emax m e l in
  (0 <= shr_m mrs)%Z
  /\ (shr_m mrs < 2 ^ (B - e1) \/ shr_m mrs = 0)%Z
  /\ (e1 <= Z.max e (B - 53))%Z.
Proof.
  intros Hm Hb HB. unfold shr_fexp, shr.
  assert (H0 : shr_m (shr_record_of_loc m l) = m)
    by (destruct l as [| []]; reflexivity).
  destruct (fexp prec emax (Zdigits2 m + e) - e)%Z as [| p | p] eqn:En;
    rewrite ?H0; try (repeat split; [lia | tauto | lia]).
  destruct (iter_shr_1_bound p (shr_record_of_loc m l)) as [H1 H2];
    [rewrite H0; exact Hm |].
  rewrite H0 in H2. set (m1 := shr_m _) in *.
  assert (Hp : (0 < 2 ^ Z.pos p)%Z) by (apply Z.pow_pos_nonneg; lia).
  unfold fexp, SpecFloat.emin, prec, emax in En.
  destruct Hb as [Hb | ->].
  - assert (Hk : (0 <= B - e)%Z).
    { destruct (Z_le_gt_dec 0 (B - e)) as [H | H]; [exact H |].
      rewrite Z.pow_neg_r in Hb by lia. lia. }
    pose proof (Zdigits2_bound m (B - e) Hk (conj Hm Hb)) as Hd.
    assert (He1 : (e + Z.pos p <= B - 53)%Z) by lia.
    repeat split; [exact H1 | | lia]. left.
    replace (B - e)%Z with (Z.pos p + (B - (e + Z.pos p)))%Z in Hb by lia.
    rewrite Z.pow_add_r in Hb by lia.
    assert (0 < 2 ^ (B - (e + Z.pos p)))%Z by (apply Z.pow_pos_nonneg; lia).
    nia.
  - simpl in En. repeat split; [exact H1 | right; nia | lia].
Qed.

Lemma round_nearest_even_le (m : Z) (l : location) :
  (0 <= m)%Z ->
  (0 <= round_nearest_even m l <= m + 1)%Z.
Proof.
  intros Hm. destruct l as [| []]; simpl; try lia.
  destruct (Z.even m); lia.
Qed.

Lemma binary_round_aux_finite (sx : bool) (mx ex : Z) (lx : location) (B : Z) :
  (0 <= mx)%Z -> (mx < 2 ^ (B - ex) \/ mx = 0)%Z ->
  (-1021 <= B <= 1023)%Z -> (ex <= 971)%Z -> (ex <= B)%Z ->
  isfinite (binary_round_aux prec emax sx mx ex lx) = true.
Proof.
  intros Hm Hb HB Hex HexB. unfold binary_round_aux.
  pose proof (shr_fexp_bound mx ex lx B Hm Hb ltac:(lia)) as H1.
  destruct (shr_fexp prec emax mx ex lx) as [mrs1 e1].
  destruct H1 as (H1a & H1b & H1c).
  pose proof (round_nearest_even_le (shr_m mrs1) (loc_of_shr_record mrs1) H1a)
    as Hr.
  set (m1 := round_nearest_even _ _) in *.
  assert (Hb1 : (m1 < 2 ^ (B + 1 - e1) \/ m1 = 0)%Z).
  { left. replace (B + 1 - e1)%Z with (Z.succ (B - e1)) by lia.
    rewrite Z.pow_succ_r by lia.
    assert (0 < 2 ^ (B - e1))%Z by (apply Z.pow_pos_nonneg; lia). lia. }
  pose proof (shr_fexp_bound m1 e1 loc_Exact (B + 1) ltac:(lia) Hb1 ltac:(lia))
    as H2.
  destruct (shr_fexp prec emax m1 e1 loc_Exact) as [mrs2 e2].
  destruct H2 as (H2a & _ & H2c).
  destruct (shr_m mrs2); [reflexivity | | lia].
  unfold emax, prec. destruct (Z.leb_spec e2 (1024 - 53)); [reflexivity | lia].
Qed.

Lemma round_decimal_finite (neg : bool) (n : N) (k : nat) :
  (Z.of_N n < 2 ^ 997)%Z -> isfinite (round_decimal neg n k) = true.
Proof.
  intros Hn. destruct n as [| m]; [reflexivity |]. unfold round_decimal.
  destruct (SFdiv_core_binary prec emax (Z.pos m) 0 (10 ^ Z.of_nat k) 0)
    as [[mz ez] lz] eqn:E.
  unfold SFdiv_core_binary in E.
  set (e' := Z.min _ _) in E.
  assert (He' : (e' <= 0)%Z) by (subst e'; lia).
  set (m' := match (0 - 0 - e')%Z with
             | Z0 => _ | Zpos _ => _ | Zneg _ => _
             end) in E.
  assert (Hm' : (0 <= m' <= Z.pos m * 2 ^ (- e'))%Z).
  { subst m'. destruct (0 - 0 - e')%Z as [| p | p] eqn:Es; try lia.
    - replace (- e')%Z with 0%Z by lia. simpl. lia.
    - rewrite Z.shiftl_mul_pow2 by lia.
      replace (- e')%Z with (Z.pos p) by lia. lia. }
  assert (Hten : (0 < 10 ^ Z.of_nat k)%Z) by (apply Z.pow_pos_nonneg; lia).
  pose proof (Z.div_pos m' _ (proj1 Hm') Hten) as Hq0.
  pose proof (Z.div_le_upper_bound m' (10 ^ Z.of_nat k) m' Hten
                ltac:(nia)) as Hq1.
  unfold Z.div in Hq0, Hq1.
  destruct (Z.div_eucl m' (10 ^ Z.of_nat k)) as [q r].
  inversion E; subst mz ez lz. simpl in Hq0, Hq1.
  apply binary_round_aux_finite with (B := 997%Z); try lia.
  left. replace (997 - e')%Z with (997 + - e')%Z by lia.
  rewrite Z.pow_add_r by lia.
  assert (0 < 2 ^ (- e'))%Z by (apply Z.pow_pos_nonneg; lia).
  simpl Z.of_N in Hn. nia.
Qed.
End Rounding.

(** [float] of a string is never NaN. *)
Lemma float_of_str_not_nan (U : unicode) (s : str) (f : float) :
  float_of_str U s = inr f -> isnan f = false.
Proof.
  unfold float_of_str.
  repeat match goal with
         | |- context [let '(_, _) := ?x in _] => destruct x
         | |- context [match ?x with _ => _ end] => destruct x
         end; simpl; unfold ret, raise; intros H; inversion H;
    apply round_decimal_not_nan.
Qed.

(** ** The size of what [float] parses *)

Lemma dropwhile_length (p : char -> bool) (s : str) :
  length (dropwhile p s) <= length s.
Proof.
  induction s as [| c s IH]; simpl; [lia |]. destruct (p c); simpl; lia.
Qed.

Lemma rdropwhile_length (p : char -> bool) (s : str) :
  length (rdropwhile p s) <= length s.
Proof.
  unfold rdropwhile. rewrite length_rev.
  pose proof (dropwhile_length p (rev s)). now rewrite length_rev in *.
Qed.

Lemma to_ascii_length (U : unicode) (s : str) :
  length (to_ascii U s) <= length s.
Proof.
  unfold to_ascii.
  match goal with
  | |- context [forallb ?p s] => destruct (forallb p s); [lia |]
  end.
  induction s as [| c s IH]; simpl; [lia |].
  destruct (c <? 127)%N; simpl; [lia |].
  destruct (isspace U c); simpl; [lia |].
  destruct (todecimal U c); simpl; lia.
Qed.

Lemma span_digits_spec (s : str) :
  Forall (fun d => (d <= 9)%N) (fst (span_digits s))
  /\ length (fst (span_digits s)) + length (snd (span_digits s)) = length s.
Proof.
  induction s as [| c s [IH1 IH2]]; simpl; [split; [constructor | reflexivity] |].
  destruct (ascii_digit c) eqn:E.
  - destruct (span_digits s) as [ds r]. simpl in *. split; [| lia].
    constructor; [| exact IH1]. ascii_classes.
  - simpl. split; [constructor | reflexivity].
Qed.

Lemma digits_value_bound (ds : list N) :
  Forall (fun d => (d <= 9)%N) ds ->
  (digits_value ds < 10 ^ N.of_nat (length ds))%N.
Proof.
  unfold digits_value. intros H.
  assert (G : forall acc,
             (fold_left (fun a d => 10 * a + d) ds acc
              < (acc + 1) * 10 ^ N.of_nat (length ds))%N).
  { induction H as [| d ds Hd _ IH]; intros acc; simpl fold_left.
    - simpl. lia.
    - specialize (IH (10 * acc + d)%N).
      replace (N.of_nat (length (d :: ds))) with (N.succ (N.of_nat (length ds)))
        by (simpl; lia).
      rewrite N.pow_succ_r'. nia. }
  specialize (G 0%N). lia.
Qed.

(** [float] of a string of at most 300 characters is finite. *)
Lemma float_of_str_finite (U : unicode) (s : str) (f : float) :
  length s <= 300 -> float_of_str U s = inr f -> isfinite f = true.
Proof.
  intros Hlen. unfold float_of_str.
  set (a := rdropwhile c_isspace (dropwhile c_isspace (to_ascii U s))).
  assert (Ha : length a <= 300).
  { subst a. pose proof (rdropwhile_length c_isspace
                           (dropwhile c_isspace (to_ascii U s))).
    pose proof (dropwhile_length c_isspace (to_ascii U s)).
    pose proof (to_ascii_length U s). lia. }
  set (sb := match a with
             | 45%N :: r => (true, r)
             | 43%N :: r => (false, r)
             | _ => (false, a)
             end).
  assert (Hb : length (snd sb) <= 300).
  { subst sb. destruct a as [| c r]; [simpl; lia |].
    repeat match goal with
           | |- context [match ?x with _ => _ end] => destruct x
           end; simpl in *; lia. }
  destruct sb as [neg body]. simpl in Hb.
  pose proof (span_digits_spec body) as [Hi1 Hi2].
  destruct (span_digits body) as [ip r1]. simpl in Hi1, Hi2.
  set (fr := match r1 with
             | 46%N :: r => span_digits r
             | _ => ([], r1)
             end).
  assert (Hf : Forall (fun d => (d <= 9)%N) (fst fr)
               /\ length (fst fr) <= length r1).
  { subst fr. destruct r1 as [| c r]; [split; [constructor | simpl; lia] |].
    assert (D : Forall (fun d => (d <= 9)%N) (fst (span_digits r))
                /\ length (fst (span_digits r)) <= length (c :: r)).
    { pose proof (span_digits_spec r) as [H1 H2]. split; [exact H1 |].
      simpl. lia. }
    assert (D0 : Forall (fun d => (d <= 9)%N) (@nil N)
                 /\ length (@nil N) <= length (c :: r))
      by (split; [constructor | simpl; lia]).
    repeat match goal with
           | |- context [match ?x with _ => _ end] => destruct x
           end; assumption. }
  destruct fr as [fp r2]. simpl in Hf. destruct Hf as [Hf1 Hf2].
  destruct r2; [| discriminate].
  destruct (ip ++ fp) as [| d ds] eqn:Eds; [discriminate |].
  unfold ret. intros H. inversion H; subst f. clear H.
  apply round_decimal_finite. rewrite <- Eds.
  pose proof (digits_value_bound (ip ++ fp)
                ltac:(apply Forall_app; split; assumption)) as Hv.
  assert (Hl : length (ip ++ fp) <= 300) by (rewrite length_app; lia).
  assert (Hp : (10 ^ N.of_nat (length (ip ++ fp)) <= 10 ^ 300)%N)
    by (apply N.pow_le_mono_r; lia).
  assert (Hc : (Z.of_N (10 ^ 300) < 2 ^ 997)%Z) by (vm_compute; reflexivity).
  lia.
Qed.

(** ** [parse_price] *)

Lemma ascii_str_check (s : str) :
  forallb (fun c => (c <? 128)%N) s = true -> ascii_str s.
Proof.
  intros H. apply Forall_forall. intros c Hc. apply list_elem_of_In in Hc.
  rewrite forallb_forall in H. now apply N.ltb_lt, H.
Qed.

(** [float] does not look at the database on an ASCII string. *)
Lemma float_of_str_ascii (U U' : unicode) (s : str) :
  ascii_str s -> float_of_str U s = float_of_str U' s.
Proof.
  intros Hs. unfold float_of_str, to_ascii.
  assert (E : forallb (fun c => (c <? 128)%N) s = true).
  { apply forallb_forall. intros c Hc. apply N.ltb_lt.
    unfold ascii_str in Hs. rewrite Forall_forall in Hs.
    apply Hs. now apply list_elem_of_In. }
  now rewrite E.
Qed.

(** Nor does [parse_price], beyond the ASCII part of the database. *)
Lemma parse_price_ascii (U : unicode) (s : str) :
  unicode_ok U -> ascii_str s ->
  parse_price U (VStr s) = parse_price small_unicode (VStr s).
Proof.
  intros HU Hs. unfold parse_price, ascii_str in *.
  rewrite Forall_forall in Hs.
  rewrite (filter_ext_in
             (fun ch => isdigit U ch || char_in ch (lit ".,-"))
             (fun ch => isdigit small_unicode ch || char_in ch (lit ".,-"))).
  2:{ intros c Hc. apply list_elem_of_In in Hc.
      now rewrite (isdigit_ascii U HU c (Hs c Hc)),
        (isdigit_ascii small_unicode small_unicode_ok c (Hs c Hc)). }
  set (digits := List.filter _ s).
  assert (Ha : ascii_str (replace 44 46 digits)).
  { unfold replace, ascii_str. rewrite Forall_map.
    apply Forall_forall. intros c Hc. apply list_elem_of_In in Hc.
    apply filter_In in Hc as [Hc _]. apply list_elem_of_In in Hc.
    simpl. destruct (N.eqb_spec c 44); [lia | auto]. }
  now rewrite (float_of_str_ascii U small_unicode _ Ha).
Qed.

(** What reaches [float]: digits, ['.'] and ['-'] only, so none of the
    spellings of [float] with a letter, ['_'] or ['+']. *)
Lemma cleaned_alphabet (U : unicode) (s : str) (c : char) :
  In c (replace 44 46
          (List.filter (fun ch => isdigit U ch || char_in ch (lit ".,-")) s)) ->
  isdigit U c = true \/ c = 46%N \/ c = 45%N.
Proof.
  unfold replace. rewrite in_map_iff. intros (d & Hd & Hin).
  apply filter_In in Hin as [_ Hk].
  destruct (N.eqb_spec d 44) as [E | Hne]; subst; [auto |].
  apply orb_true_iff in Hk as [Hk | Hk]; [auto |]. right.
  unfold char_in in Hk. simpl in Hk.
  repeat match type of Hk with
         | context [(c =? ?k)%N] => destruct (N.eqb_spec c k)
         end; simpl in Hk; try discriminate; auto; contradiction.
Qed.

(** C3, as the code has it: [parse_price] never raises on a string; it
    returns no value or a float that is not NaN, which is a finite number
    whenever at most 300 characters are left after the stripping (beyond
    the range of a double, [float] gives an infinity); the characters
    other than digits, ['.'], [','] and ['-'] are dropped, an empty rest
    gives no value, otherwise [','] becomes ['.'] and the rest is parsed by
    [float], whose failure gives no value; "EGP 45.50" gives 45.5, an em
    dash gives no value, "120,00" gives 120. *)
Theorem parse_price_total (U : unicode) (s : str) :
  unicode_ok U ->
  let digits :=
    List.filter (fun ch => isdigit U ch || char_in ch (lit ".,-")) s in
  (exists r, parse_price U (VStr s) = inr r
             /\ forall f, r = Some f ->
                   isnan f = false
                   /\ (length digits <= 300 -> isfinite f = true))
  /\ (digits = [] -> parse_price U (VStr s) = inr None)
  /\ (digits <> [] ->
      parse_price U (VStr s)
      = inr match float_of_str U (replace 44 46 digits) with
            | inr f => Some f
            | inl _ => None
            end)
  /\ parse_price U (VStr (lit "EGP 45.50"))
     = inr (Some (binary_normalize prec emax 91 (-1) false))
  /\ parse_price U (VStr [8212%N]) = inr None
  /\ parse_price U (VStr (lit "120,00")) = inr (Some (float_of_Z 120)).
Proof.
  intros HU digits.
  assert (Hshape :
    parse_price U (VStr s)
    = inr match digits with
          | [] => None
          | _ :: _ => match float_of_str U (replace 44 46 digits) with
                      | inr f => Some f
                      | inl _ => None
                      end
          end).
  { unfold parse_price. fold digits. destruct digits as [| c d]; [reflexivity |].
    destruct (float_of_str U (replace 44 46 (c :: d))) as [e | f] eqn:E;
      [| reflexivity].
    now rewrite (float_of_str_raises _ _ _ E). }
  split; [| split; [| split; [| split; [| split]]]].
  - eexists. split; [exact Hshape |].
    intros f Hf. destruct digits as [| c d]; [discriminate |].
    destruct (float_of_str U (replace 44 46 (c :: d))) as [e | g] eqn:E;
      [discriminate |].
    inversion Hf; subst. split; [exact (float_of_str_not_nan _ _ _ E) |].
    intros Hlen. apply (float_of_str_finite U (replace 44 46 (c :: d)));
      [unfold replace; now rewrite length_map | exact E].
  - intros E. rewrite Hshape, E. reflexivity.
  - intros E. rewrite Hshape. destruct digits; [contradiction | reflexivity].
  - rewrite (parse_price_ascii U _ HU) by (now apply ascii_str_check).
    vm_compute. reflexivity.
  - unfold parse_price. simpl.
    rewrite (isdigit_punctuation U HU 8212%N) by lia. reflexivity.
  - rewrite (parse_price_ascii U _ HU) by (now apply ascii_str_check).
    vm_compute. reflexivity.
Qed.

Lemma parse_price_total_witness :
  parse_price small_unicode (VStr (lit "EGP 45.50"))
  = inr (Some (binary_normalize prec emax 91 (-1) false)).
Proof.
  exact (proj1 (proj2 (proj2 (proj2
           (parse_price_total small_unicode (lit "x") small_unicode_ok))))).
Defined.

(** C3 as stated fails: a string of 400 nines parses to plus infinity,
    which is neither a finite number nor "no value". *)
Lemma parse_price_not_always_finite :
  ~ (forall (U : unicode) (s : str), unicode_ok U ->
       exists r, parse_price U (VStr s) = inr r
                 /\ forall f, r = Some f -> isfinite f = true).
Proof.
  intros H.
  destruct (H small_unicode (repeat 57%N 400) small_unicode_ok) as (r & Hr & Hf).
  vm_compute in Hr. inversion Hr; subst.
  specialize (Hf _ eq_refl). discriminate.
Qed.

(** ** File name sanitization *)

Lemma dropwhile_ext (p q : char -> bool) (s : str) :
  (forall c, In c s -> p c = q c) -> dropwhile p s = dropwhile q s.
Proof.
  induction s as [| c s IH]; simpl; intros H; [reflexivity |].
  rewrite <- (H c) by auto. destruct (p c); [| reflexivity].
  apply IH. intros d Hd. apply H. auto.
Qed.

Lemma dropwhile_incl (p : char -> bool) (s : str) (c : char) :
  In c (dropwhile p s) -> In c s.
Proof.
  induction s as [| d s IH]; simpl; [tauto |].
  destruct (p d); simpl; tauto.
Qed.

Lemma rdropwhile_ext (p q : char -> bool) (s : str) :
  (forall c, In c s -> p c = q c) -> rdropwhile p s = rdropwhile q s.
Proof.
  intros H. unfold rdropwhile. f_equal. apply dropwhile_ext.
  intros c Hc. apply H. now apply in_rev.
Qed.

Lemma dropwhile_map (f : char -> char) (p : char -> bool) (s : str) :
  (forall c, p (f c) = p c) -> dropwhile p (map f s) = map f (dropwhile p s).
Proof.
  intros H. induction s as [| c s IH]; simpl; [reflexivity |].
  rewrite H. destruct (p c); [exact IH | reflexivity].
Qed.

Lemma rdropwhile_map (f : char -> char) (p : char -> bool) (s : str) :
  (forall c, p (f c) = p c) -> rdropwhile p (map f s) = map f (rdropwhile p s).
Proof.
  intros H. unfold rdropwhile.
  now rewrite <- map_rev, dropwhile_map, map_rev.
Qed.

Lemma char_in_safe (c : char) :
  char_in c (lit " _-")
  = ((c =? 32) || ((c =? 95) || ((c =? 45) || false)))%N.
Proof. reflexivity. Qed.

(** The character kept or replaced by [safe_name]. *)
Lemma kept_space (U : unicode) (c : char) :
  unicode_ok U ->
  let k := if isalnum U c || char_in c (lit " _-") then c else 95%N in
  isspace U k = (k =? 32)%N /\ (k =? 32)%N = (c =? 32)%N.
Proof.
  intros HU k. subst k. rewrite char_in_safe.
  destruct (N.eqb_spec c 32) as [-> | Hc].
  - rewrite orb_true_r. split; [| reflexivity].
    now rewrite (isspace_ascii U HU) by lia.
  - destruct (isalnum U c || _) eqn:E.
    + destruct (N.eqb_spec c 32); [contradiction |]. split; [| reflexivity].
      destruct (isspace U c) eqn:Es; [| reflexivity].
      rewrite (isspace_not_alnum U HU c Es) in E.
      destruct (N.eqb_spec c 95) as [-> | ?];
        [now rewrite (isspace_ascii U HU) in Es by lia |].
      destruct (N.eqb_spec c 45) as [-> | ?];
        [now rewrite (isspace_ascii U HU) in Es by lia | discriminate].
    + split; [| reflexivity]. now rewrite (isspace_ascii U HU) by lia.
Qed.

(** C8, as the code has it: every character that is neither alphanumeric
    ([str.isalnum]; among ASCII characters the letters and digits) nor one
    of space, [_] and [-] becomes [_]; then leading and trailing spaces
    are stripped, and the spaces left become [_].  On an ASCII string the
    result is the sanitization of the specification applied to the string
    without its leading and trailing spaces.  The vendor name and the
    location go through the same function, and "Sarai Market / Al-Ekbal!"
    becomes "Sarai_Market___Al-Ekbal_". *)
Theorem safe_name_spec (U : unicode) (s : str) :
  unicode_ok U ->
  safe_name U s
  = replace 32 95
      (strip_spaces
         (map (fun ch => if isalnum U ch || char_in ch (lit " _-")
                         then ch else 95%N) s))
  /\ (ascii_str s -> safe_name U s = Spec.sanitize (strip_spaces s))
  /\ (ascii_str s -> strip_spaces s = s -> safe_name U s = Spec.sanitize s)
  /\ (forall vendor location ts,
        out_name U vendor location ts
        = safe_name U vendor ++ lit "__" ++ safe_name U location
            ++ lit "__" ++ ts ++ lit ".parquet")
  /\ safe_name U (lit "Sarai Market / Al-Ekbal!")
     = lit "Sarai_Market___Al-Ekbal_".
Proof.
  intros HU.
  set (keep := fun ch => if isalnum U ch || char_in ch (lit " _-")
                         then ch else 95%N).
  assert (H1 : forall t, strip U (map keep t) = strip_spaces (map keep t)).
  { intros t. unfold strip, strip_spaces.
    assert (Hk : forall c, In c (map keep t) ->
                           isspace U c = (c =? 32)%N).
    { intros c Hc. apply in_map_iff in Hc as (d & <- & _).
      apply (kept_space U d HU). }
    rewrite (dropwhile_ext _ _ _ Hk).
    apply rdropwhile_ext. intros c Hc. apply Hk.
    now apply dropwhile_incl in Hc. }
  assert (H2 : forall t, strip_spaces (map keep t) = map keep (strip_spaces t)).
  { intros t. unfold strip_spaces.
    rewrite dropwhile_map by (intros c; apply (kept_space U c HU)).
    apply rdropwhile_map. intros c; apply (kept_space U c HU). }
  assert (H3 : forall t, ascii_str t -> safe_name U t
                                        = Spec.sanitize (strip_spaces t)).
  { intros t Ht. unfold safe_name. fold keep. rewrite H1, H2.
    unfold Spec.sanitize. f_equal. apply map_ext_in.
    intros c Hc. unfold keep, Spec.allowed.
    assert (Hc' : In c t).
    { unfold strip_spaces, rdropwhile in Hc. apply in_rev in Hc.
      apply dropwhile_incl in Hc. apply in_rev in Hc.
      now apply dropwhile_incl in Hc. }
    unfold ascii_str in Ht. rewrite Forall_forall in Ht.
    apply list_elem_of_In in Hc'.
    now rewrite (isalnum_ascii U HU c (Ht c Hc')). }
  split; [| split; [| split; [| split]]].
  - unfold safe_name. fold keep. now rewrite H1.
  - apply H3.
  - intros Ha Hs. rewrite (H3 s Ha). now rewrite Hs.
  - reflexivity.
  - rewrite H3 by (now apply ascii_str_check). vm_compute. reflexivity.
Qed.

Lemma safe_name_spec_witness :
  safe_name small_unicode (lit "Sarai Market / Al-Ekbal!")
  = lit "Sarai_Market___Al-Ekbal_".
Proof.
  exact (proj2 (proj2 (proj2 (proj2
           (safe_name_spec small_unicode (lit "Cairo") small_unicode_ok))))).
Defined.

(** C8 as stated fails: of " a" the code makes "a", the stated mapping
    "_a". *)
Lemma safe_name_strips_spaces :
  ~ (forall (U : unicode) (s : str),
       unicode_ok U -> safe_name U s = Spec.sanitize s).
Proof.
  intros H. specialize (H small_unicode (lit " a") small_unicode_ok).
  vm_compute in H. discriminate.
Qed.

(** ** The cross product of tasks *)

Lemma combos_cons (cat : str) (categories locations : list str) :
  combos (cat :: categories) locations
  = map (fun loc => (cat, loc)) locations ++ combos categories locations.
Proof. reflexivity. Qed.

Lemma in_combos (categories locations : list str) (cat loc : str) :
  In (cat, loc) (combos categories locations)
  <-> In cat categories /\ In loc locations.
Proof.
  unfold combos. rewrite in_flat_map. split.
  - intros (c & Hc & Hin). apply in_map_iff in Hin as (l & E & Hl).
    inversion E; subst. auto.
  - intros [Hc Hl]. exists cat. split; [exact Hc |].
    apply in_map_iff. eauto.
Qed.

Lemma combos_length (categories locations : list str) :
  length (combos categories locations)
  = length categories * length locations.
Proof.
  induction categories as [| c cs IH]; [reflexivity |].
  rewrite combos_cons, length_app, length_map, IH. simpl. lia.
Qed.

Lemma combos_nth (categories locations : list str) (i j : nat) (cat loc : str) :
  nth_error categories i = Some cat -> nth_error locations j = Some loc ->
  nth_error (combos categories locations) (i * length locations + j)
  = Some (cat, loc).
Proof.
  revert i. induction categories as [| c cs IH]; intros i Hi Hj.
  - destruct i; discriminate.
  - assert (Hlt : j < length locations)
      by (apply nth_error_Some; congruence).
    rewrite combos_cons. destruct i as [| i]; simpl in Hi.
    + inversion Hi; subst. simpl.
      rewrite nth_error_app1 by (rewrite length_map; exact Hlt).
      rewrite nth_error_map, Hj. reflexivity.
    + rewrite nth_error_app2 by (rewrite length_map; simpl; lia).
      rewrite length_map.
      replace (S i * length locations + j - length locations)
        with (i * length locations + j) by (simpl; lia).
      now apply IH.
Qed.

Lemma combos_NoDup (categories locations : list str) :
  NoDup categories -> NoDup locations -> NoDup (combos categories locations).
Proof.
  intros Hc Hl. induction Hc as [| c cs Hnotin Hcs IH]; [constructor |].
  rewrite combos_cons. apply NoDup_app. split; [| split; [| exact IH]].
  - clear -Hl. induction Hl as [| l ls Hn _ IHl]; simpl; constructor; auto.
    rewrite list_elem_of_In, in_map_iff. intros (l' & E & Hin).
    inversion E; subst. apply Hn. now apply list_elem_of_In.
  - intros [c' l'] H1 H2. apply list_elem_of_In in H1, H2.
    apply in_map_iff in H1 as (l & E & _). inversion E; subst.
    apply in_combos in H2 as [H2 _]. apply Hnotin. now apply list_elem_of_In.
Qed.

(** The loop keeps what was printed before it. *)
Lemma run_pool_stdout (U : unicode) (config : ScraperConfig)
    (completed : list (str * str * TaskEnv)) (fs : FS)
    (wout : list message) (acc : collected) (m : message) :
  In m (stdout acc) ->
  In m (stdout (snd (run_pool U config completed fs wout acc))).
Proof.
  revert fs wout acc.
  induction completed as [| [[cat loc] env] rest IH]; intros fs wout acc Hm;
    [exact Hm |].
  simpl.
  destruct (scrape_one_category_location U cat loc config env fs)
    as [[fs' out] r].
  apply IH. unfold collect.
  destruct r as [e | [[c l] out_path]]; simpl;
    [| destruct (Path_exists fs' out_path)]; simpl;
    rewrite ?in_app_iff; auto.
Qed.

(** C5: from non-empty lists of [m] categories and [n] locations the
    orchestrator builds [m * n] tasks, one for each pair of a category and
    a location, the categories in the outer loop and the locations in the
    inner one (task [i * n + j] is category [i] at location [j]); the tasks
    are pairwise distinct when neither list repeats an entry; and [main]
    announces that many combos. *)
Theorem combos_cross_product (categories locations : list str) :
  categories <> [] -> locations <> [] ->
  length (combos categories locations)
  = length categories * length locations
  /\ (forall i j cat loc,
        nth_error categories i = Some cat ->
        nth_error locations j = Some loc ->
        nth_error (combos categories locations) (i * length locations + j)
        = Some (cat, loc))
  /\ (forall cat loc,
        In (cat, loc) (combos categories locations)
        <-> In cat categories /\ In loc locations)
  /\ (NoDup categories -> NoDup locations ->
      NoDup (combos categories locations))
  /\ (forall read_parquet as_completed U config fs fs' out ending,
        main read_parquet as_completed U config categories locations fs
        = inr (fs', out, ending) ->
        In (TotalCombos (length categories * length locations)) out).
Proof.
  intros Hc Hl.
  split; [apply combos_length |].
  split; [intros; now apply combos_nth |].
  split; [intros; apply in_combos |].
  split; [apply combos_NoDup |].
  intros read_parquet as_completed U config fs fs' out ending.
  rewrite <- combos_length. set (tasks := combos categories locations).
  unfold main. fold tasks.
  destruct (mkdir fs (output_dir config)) as [e | fs1]; [discriminate |].
  cbn [mbind result_bind bind].
  destruct (mkdir fs1 (log_dir config)) as [e | fs2]; [discriminate |].
  cbn [mbind result_bind bind].
  destruct categories as [| c cs]; [contradiction |].
  destruct locations as [| l ls]; [contradiction |].
  pose proof (run_pool_stdout U config (as_completed tasks) fs2 []
                {| parquet_files := [];
                   stdout := [TotalCombos (length tasks)] |}
                (TotalCombos (length tasks)) ltac:(simpl; auto)) as Hin.
  destruct (run_pool U config (as_completed tasks) fs2 [] _)
    as [[fs3 wout] got].
  cbn [snd] in Hin.
  destruct (parquet_files got); intros H; inversion H; subst;
    rewrite ?in_app_iff; auto.
Qed.

Lemma combos_cross_product_witness :
  length (combos [lit "c1"; lit "c2"] [lit "Cairo"; lit "Giza"; lit "Luxor"])
  = 2 * 3.
Proof.
  exact (proj1 (combos_cross_product
                  [lit "c1"; lit "c2"] [lit "Cairo"; lit "Giza"; lit "Luxor"]
                  ltac:(discriminate) ltac:(discriminate))).
Defined.

(** ** Deduplication *)




Lemma drop_from_keys (seen : gset key) (rows : DataFrame) (r : ProductRecord) :
  In r (drop_duplicates_from seen rows) -> (key_of r ∉ seen) /\ In r rows.
Proof.
  revert seen. induction rows as [| r0 rest IH]; intros seen; simpl;
    [tauto |].
  destruct (decide (key_of r0 ∈ seen)) as [Hin | Hout].
  - intros H. apply IH in H. tauto.
  - simpl. intros [-> | H]; [tauto |]. apply IH in H. set_solver.
Qed.

Lemma drop_from_NoDup (seen : gset key) (rows : DataFrame) :
  NoDup (map key_of (drop_duplicates_from seen rows)).
Proof.
  revert seen. induction rows as [| r rest IH]; intros seen; simpl;
    [constructor |].
  destruct (decide (key_of r ∈ seen)); [apply IH |].
  simpl. constructor; [| apply IH].
  rewrite list_elem_of_In, in_map_iff. intros (r' & E & Hin).
  apply drop_from_keys in Hin as [Hk _]. rewrite E in Hk. apply Hk.
  apply elem_of_union_l. now apply elem_of_singleton.
Qed.



Lemma drop_from_key_In (seen : gset key) (rows : DataFrame) (k : key) :
  In k (map key_of (drop_duplicates_from seen rows))
  <-> In k (map key_of rows) /\ (k ∉ seen).
Proof.
  revert seen. induction rows as [| r rest IH]; intros seen; simpl;
    [tauto |].
  destruct (decide (key_of r ∈ seen)) as [Hin | Hout].
  - rewrite IH. split; [tauto |].
    intros [[E | H] Hk]; [subst; contradiction | tauto].
  - simpl. rewrite IH, elem_of_union, elem_of_singleton. split.
    + intros [E | [H Hk]]; [subst; tauto | tauto].
    + intros [[E | H] Hk]; [auto |].
      destruct (decide (k = key_of r)) as [-> | Hne]; [auto |].
      right. split; [exact H | tauto].
Qed.



(** ** Derived columns *)

(** [parse_price] returns, on any cell, and what it returns is no NaN. *)
Lemma parse_price_returns (U : unicode) (v : value) :
  exists o, parse_price U v = inr o
            /\ forall f, o = Some f -> isnan f = false.
Proof.
  destruct v as [| s | | |]; try (exists None; split; [reflexivity | discriminate]).
  unfold parse_price.
  destruct (List.filter _ s) as [| c d];
    [exists None; split; [reflexivity | discriminate] |].
  destruct (float_of_str U (replace 44 46 (c :: d))) as [e | f] eqn:E.
  - rewrite (float_of_str_raises _ _ _ E). exists None.
    split; [reflexivity | discriminate].
  - exists (Some f). split; [reflexivity |].
    intros g Hg. inversion Hg; subst. exact (float_of_str_not_nan _ _ _ E).
Qed.

Lemma derive_row_returns (U : unicode) (r : ProductRecord) :
  exists row, derive_row U r = inr row.
Proof.
  unfold derive_row.
  destruct (parse_price_returns U (VStr (price r))) as (p & -> & _).
  destruct (parse_price_returns U (old_price r)) as (o & -> & _).
  eexists. reflexivity.
Qed.

Lemma derive_returns (U : unicode) (rows : DataFrame) :
  exists full, derive U rows = inr full /\ map record full = rows
               /\ forall row, In row full -> derive_row U (record row) = inr row.
Proof.
  induction rows as [| r rest (full & E & Hrec & Hrows)].
  - exists []. repeat split. intros row [].
  - destruct (derive_row_returns U r) as (row & Er).
    exists (row :: full). simpl. rewrite Er. cbn [mbind result_bind bind].
    rewrite E. cbn [mbind result_bind bind].
    assert (Hr : record row = r).
    { unfold derive_row in Er.
      destruct (parse_price U (VStr (price r))); [discriminate |].
      cbn [mbind result_bind bind] in Er.
      destruct (parse_price U (old_price r)); [discriminate |].
      inversion Er. reflexivity. }
    repeat split.
    + simpl. now rewrite Hr, Hrec.
    + intros row' [<- | Hin]; [now rewrite Hr | now apply Hrows].
Qed.

(** C10: on anything that is not a string ([None], a float such as NaN,
    an integer, a boolean), [parse_price] returns no value and does not
    raise; a row whose old price is such a cell gets no numeric old price
    and no discount, and applying [parse_price] down a column returns
    whatever the cells hold. *)
Theorem parse_price_non_string (U : unicode) (v : value) :
  (forall s, v <> VStr s) ->
  parse_price U v = inr None
  /\ (forall r, old_price r = v ->
        exists row, derive_row U r = inr row
                    /\ old_price_numeric row = nan
                    /\ discount_percent row = nan)
  /\ (forall rows, exists full,
        derive U rows = inr full /\ map record full = rows).
Proof.
  intros Hv.
  assert (E : parse_price U v = inr None)
    by (destruct v; try reflexivity; now destruct (Hv s)).
  split; [exact E |]. split.
  - intros r Hr. unfold derive_row. rewrite Hr, E.
    destruct (parse_price_returns U (VStr (price r))) as (p & -> & _).
    eexists. split; [reflexivity |]. split; reflexivity.
  - intros rows. destruct (derive_returns U rows) as (full & H1 & H2 & _).
    eauto.
Qed.

Lemma parse_price_non_string_witness :
  parse_price small_unicode VNone = inr None
  /\ parse_price small_unicode (VFloat nan) = inr None.
Proof.
  split.
  - exact (proj1 (parse_price_non_string small_unicode VNone
                    ltac:(intros s; discriminate))).
  - exact (proj1 (parse_price_non_string small_unicode (VFloat nan)
                    ltac:(intros s; discriminate))).
Defined.

(** C2: the combined table is produced without an exception, its rows
    are the deduplicated records, and in every row: when the price and the
    old price both parse to a value and the old price is above zero,
    [discount_percent] is [(old - price) / old * 100] on those values; in
    every other case (a price or an old price without value, an old price
    of zero or below) it holds no value, which pandas writes as NaN and not
    as zero.  An old price of 100 with a price of 75 gives exactly 25. *)
Theorem discount_percent_rule (U : unicode) (dfs : list DataFrame) :
  exists full,
    combined_table U dfs = inr full
    /\ map record full = drop_duplicates (concat dfs)
    /\ (forall row, In row full ->
          let p := parse_price U (VStr (price (record row))) in
          let o := parse_price U (old_price (record row)) in
          ((exists pv ov,
              p = inr (Some pv) /\ o = inr (Some ov)
              /\ fltb (S754_zero false) ov = true
              /\ price_numeric row = pv /\ old_price_numeric row = ov
              /\ discount_percent row
                 = fmul (fdiv (fsub ov pv) ov) (float_of_Z 100))
           \/ ((p = inr None \/ o = inr None
                \/ exists ov, o = inr (Some ov)
                              /\ fltb (S754_zero false) ov = false)
               /\ discount_percent row = nan))
          /\ (old_price (record row) = VNone -> discount_percent row = nan)
          /\ (forall sg, o = inr (Some (S754_zero sg)) ->
                discount_percent row = nan))
    /\ fmul (fdiv (fsub (float_of_Z 100) (float_of_Z 75)) (float_of_Z 100))
         (float_of_Z 100) = float_of_Z 25
    /\ discount (float_of_Z 75) (float_of_Z 100) = float_of_Z 25.
Proof.
  unfold combined_table.
  destruct (derive_returns U (drop_duplicates (concat dfs)))
    as (full & E & Hrec & Hrows).
  exists full. split; [exact E |]. split; [exact Hrec |].
  split; [| split; vm_compute; reflexivity].
  intros row Hin. specialize (Hrows row Hin).
  unfold derive_row in Hrows.
  destruct (parse_price_returns U (VStr (price (record row))))
    as (pv & Ep & Hp).
  destruct (parse_price_returns U (old_price (record row)))
    as (ov & Eo & Ho).
  rewrite Ep, Eo in Hrows.
  cbn [mbind result_bind bind] in Hrows. injection Hrows as Hrow.
  pose proof (f_equal price_numeric Hrow) as Hpn.
  pose proof (f_equal old_price_numeric Hrow) as Hon.
  pose proof (f_equal discount_percent Hrow) as Hd.
  simpl in Hpn, Hon, Hd. clear Hrow.
  rewrite Ep, Eo, <- Hd, <- Hpn, <- Hon.
  assert (Hnone : forall x, discount x nan = nan) by reflexivity.
  assert (Hnonp : forall x, discount nan x = nan).
  { intros x. unfold discount. now destruct (notna x). }
  assert (Hnpos : forall x y, fltb (S754_zero false) y = false ->
                              discount x y = nan).
  { intros x y Hy. unfold discount. rewrite Hy.
    now destruct (notna y), (notna x). }
  split; [| split].
  - destruct ov as [ov |]; cbn [to_cell].
    + destruct pv as [pv |]; cbn [to_cell].
      * destruct (fltb (S754_zero false) ov) eqn:Epos.
        -- left. exists pv, ov.
           do 2 (split; [reflexivity |]). split; [exact Epos |].
           do 2 (split; [reflexivity |]).
           unfold discount, notna.
           now rewrite (Ho ov eq_refl), (Hp pv eq_refl), Epos.
        -- right. split; [right; right; eauto |]. now apply Hnpos.
      * right. split; [now left |]. apply Hnonp.
    + right. split; [right; now left |]. apply Hnone.
  - intros Hold. rewrite Hold in Eo. simpl in Eo.
    inversion Eo; subst. apply Hnone.
  - intros sg Hsg. inversion Hsg; subst. cbn [to_cell].
    now apply Hnpos.
Qed.

(** ** The scroll stabilizer *)

Section ScrollProperties.
Context {World : Type}.
Variable scroll_to_bottom : World -> result World.
Variable uniform : float -> float -> World -> float * World.
Variable sleep : float -> World -> result World.
Variable count_cards : World -> result (Z * World).
Variable scroll_up : World -> result World.

Local Abbreviation cycle_ :=
  (scroll_cycle scroll_to_bottom uniform sleep count_cards scroll_up).
Local Abbreviation loop_ :=
  (scroll_loop scroll_to_bottom uniform sleep count_cards scroll_up).
Local Abbreviation scroll_ :=
  (human_like_scroll scroll_to_bottom uniform sleep count_cards scroll_up).

Lemma range1_length (n : Z) : length (range1 n) = Z.to_nat n.
Proof. unfold range1. now rewrite length_map, length_seq. Qed.

Lemma scroll_loop_bound (config : ScraperConfig) (cycles : list Z)
    (st : scroll_state) (w : World) :
  let '(log, r) := loop_ config cycles st w in
  length log <= length cycles
  /\ map cycle log = firstn (length log) cycles
  /\ (forall e, r = inl e -> length log < length cycles)
  /\ ((forall entry, In entry log -> stopped entry = false) ->
      (exists w', r = inr w') -> length log = length cycles).
Proof.
  revert st w.
  induction cycles as [| cyc rest IH]; intros st w; simpl.
  - repeat split; auto. intros e H. discriminate.
  - destruct (scroll_cycle _ _ _ _ _ config cyc st w)
      as [e | [entry w']] eqn:E.
    + simpl. repeat split; try lia.
      intros _ [w' Hw]. discriminate.
    + assert (Hc : cycle entry = cyc).
      { unfold scroll_cycle in E.
        destruct (scroll_to_bottom w); [discriminate |].
        cbn [mbind result_bind bind] in E.
        destruct (uniform _ _ _). destruct (sleep _ _); [discriminate |].
        cbn [mbind result_bind bind] in E.
        destruct (count_cards _) as [| [c wc]]; [discriminate |].
        cbn [mbind result_bind bind] in E.
        destruct (stable_rounds _ =? 1)%Z;
          [destruct (scroll_up wc); [discriminate |] |];
          cbn [mbind result_bind bind] in E; inversion E; reflexivity. }
      destruct (stopped entry) eqn:Es.
      * simpl. rewrite Hc. repeat split; try lia.
        -- intros e H. discriminate.
        -- intros Hall _. specialize (Hall entry (or_introl eq_refl)).
           congruence.
      * specialize (IH (after entry) w').
        destruct (scroll_loop _ _ _ _ _ config rest (after entry) w')
          as [log r].
        destruct IH as (H1 & H2 & H3 & H4). simpl. rewrite Hc, H2.
        repeat split; try lia.
        -- intros e He. specialize (H3 e He). lia.
        -- intros Hall Hr. f_equal. apply H4; auto.
Qed.

(** C6: whatever the page shows and whatever counts are observed, the
    stabilizer performs at most [max_scroll_cycles] cycles, numbered
    from 1 without a gap; a run cut short by an exception has performed
    fewer, and a run in which no cycle met the stop condition has
    performed exactly [max_scroll_cycles]. *)
Theorem human_like_scroll_bounded (config : ScraperConfig) (w : World) :
  let '(log, r) := scroll_ config w in
  (Z.of_nat (length log) <= Z.max 0 (max_scroll_cycles config))%Z
  /\ map cycle log = range1 (Z.of_nat (length log))
  /\ (forall e, r = inl e ->
        (Z.of_nat (length log) < max_scroll_cycles config)%Z)
  /\ ((forall entry, In entry log -> stopped entry = false) ->
      (exists w', r = inr w') ->
      Z.of_nat (length log) = Z.max 0 (max_scroll_cycles config)).
Proof.
  unfold human_like_scroll.
  pose proof (scroll_loop_bound config (range1 (max_scroll_cycles config))
                {| last_count := 0; stable_rounds := 0 |} w) as H.
  cbv zeta in H.
  destruct (scroll_loop _ _ _ _ _ config _ _ w) as [log r].
  rewrite range1_length in H. destruct H as (H1 & H2 & H3 & H4).
  repeat split.
  - lia.
  - rewrite H2. unfold range1. rewrite Nat2Z.id, firstn_map, take_seq.
    do 2 f_equal. lia.
  - intros e He. specialize (H3 e He). lia.
  - intros Hall Hr. rewrite (H4 Hall Hr). lia.
Qed.

(** One cycle, by its effects and by the loop variables. *)
Lemma scroll_cycle_inv (config : ScraperConfig) (cyc : Z)
    (st : scroll_state) (w : World) (entry : cycle_log) (w' : World) :
  cycle_ config cyc st w = inr (entry, w') ->
  exists w1 delay w2 ws count w3,
    scroll_to_bottom w = inr w1
    /\ uniform (scroll_delay_min config) (scroll_delay_max config) w1
       = (delay, w2)
    /\ sleep delay w2 = inr ws
    /\ count_cards ws = inr (count, w3)
    /\ observed entry = count
    /\ after entry = scroll_update st count
    /\ nudged entry = (stable_rounds (after entry) =? 1)%Z
    /\ (if nudged entry then scroll_up w3 = inr w' else w' = w3)
    /\ stopped entry
       = (rounds_stable config <=? stable_rounds (after entry))%Z.
Proof.
  unfold scroll_cycle. intros E.
  destruct (scroll_to_bottom w) as [| w1] eqn:E0; [discriminate |].
  cbn [mbind result_bind bind] in E.
  destruct (uniform _ _ w1) as [delay w2] eqn:Eu.
  destruct (sleep delay w2) as [| ws] eqn:Esl; [discriminate |].
  cbn [mbind result_bind bind] in E.
  destruct (count_cards ws) as [| [count w3]] eqn:Ec; [discriminate |].
  cbn [mbind result_bind bind] in E.
  exists w1, delay, w2, ws, count, w3.
  destruct (stable_rounds (scroll_update st count) =? 1)%Z eqn:E1.
  - destruct (scroll_up w3) as [| w4] eqn:E2; [discriminate |].
    cbn [mbind result_bind bind] in E. inversion E; subst; simpl.
    rewrite E1. repeat split; auto.
  - cbn [mbind result_bind bind] in E. inversion E; subst; simpl.
    rewrite E1. repeat split; auto.
Qed.

Lemma scroll_update_rule (st : scroll_state) (count : Z) :
  (count = last_count st ->
     stable_rounds (scroll_update st count) = (stable_rounds st + 1)%Z
     /\ last_count (scroll_update st count) = last_count st)
  /\ (count <> last_count st ->
        stable_rounds (scroll_update st count) = 0%Z
        /\ last_count (scroll_update st count) = count).
Proof.
  unfold scroll_update.
  destruct (Z.eqb_spec count (last_count st)); simpl; split; intros;
    try contradiction; auto.
Qed.

Lemma scroll_loop_rule (config : ScraperConfig) (cycles : list Z)
    (st : scroll_state) (w : World) :
  Spec.stabilizer_rule (rounds_stable config) st
    (fst (loop_ config cycles st w)).
Proof.
  revert st w.
  induction cycles as [| cyc rest IH]; intros st w; simpl; [exact I |].
  destruct (scroll_cycle _ _ _ _ _ config cyc st w)
    as [e | [entry w']] eqn:E; [exact I |].
  apply scroll_cycle_inv in E
    as (w1 & delay & w2 & ws & count & w3
        & _ & _ & _ & _ & Ho & Ha & Hn & _ & Hs).
  assert (Hentry :
    (observed entry = last_count st ->
       stable_rounds (after entry) = (stable_rounds st + 1)%Z
       /\ last_count (after entry) = last_count st)
    /\ (observed entry <> last_count st ->
          stable_rounds (after entry) = 0%Z
          /\ last_count (after entry) = observed entry)
    /\ (nudged entry = true <-> stable_rounds (after entry) = 1%Z)
    /\ (stopped entry = true
        <-> (rounds_stable config <= stable_rounds (after entry))%Z)).
  { rewrite Ha, Ho. split; [apply scroll_update_rule |].
    split; [apply scroll_update_rule |]. rewrite <- Ha.
    split; [rewrite Hn; apply Z.eqb_eq | rewrite Hs; apply Z.leb_le]. }
  destruct Hentry as (R1 & R2 & R3 & R4).
  destruct (stopped entry) eqn:Es.
  - simpl. rewrite Es. repeat split; auto; try apply R1; try apply R2;
      try apply R3; try apply R4; auto.
  - specialize (IH (after entry) w').
    destruct (scroll_loop _ _ _ _ _ config rest (after entry) w')
      as [log r]. simpl in *. rewrite Es.
    repeat split; auto; try apply R1; try apply R2; try apply R3;
      try apply R4; auto; discriminate.
Qed.





End ScrollProperties.

(** ** The orchestrator *)

Lemma joinpath_neq (d : Path) (n : str) : joinpath d n <> d.
Proof.
  unfold joinpath. intros H. apply (f_equal (@length str)) in H.
  rewrite length_app in H. simpl in H. lia.
Qed.

Lemma Path_exists_joinpath (fs : FS) (d : Path) (n : str) :
  Path_exists fs (joinpath d n)
  = match entries fs !! joinpath d n with Some _ => true | None => false end.
Proof. unfold joinpath. destruct d; reflexivity. Qed.

(** [main] makes the output directory before it starts the pool. *)
Lemma mkdir_makes (fs fs' : FS) (d : Path) :
  mkdir fs d = inr fs' ->
  entries fs' !! d = Some Dir
  /\ forall p, entries fs !! p = Some Dir -> entries fs' !! p = Some Dir.
Proof.
  unfold mkdir. destruct (entries fs !! d) as [[| rows] |] eqn:E;
    intros H; inversion H; subst; simpl.
  - auto.
  - split; [apply lookup_insert_eq |].
    intros p Hp. destruct (decide (d = p)) as [-> | Hne];
      [congruence | now rewrite lookup_insert_ne].
Qed.

(** One task, case by case, once the output directory exists. *)
Lemma scrape_cases (U : unicode) (cat loc : str) (config : ScraperConfig)
    (env : TaskEnv) (fs : FS) :
  entries fs !! output_dir config = Some Dir ->
  match browser env with
  | inl e =>
      scrape_one_category_location U cat loc config env fs = (fs, [], inl e)
  | inr ([], _) =>
      scrape_one_category_location U cat loc config env fs
      = (fs, [NoProductsFound], inr (cat, loc, Path_here))
  | inr (c :: cards, vendor) =>
      let df := extract_products (c :: cards) cat loc (now_iso env) in
      let out_path :=
        joinpath (output_dir config)
          (out_name U vendor loc (now_stamp env)) in
      scrape_one_category_location U cat loc config env fs
      = (to_parquet fs out_path df, [SavedRows (length df) out_path],
         inr (cat, loc, out_path))
  end.
Proof.
  intros Hdir. unfold scrape_one_category_location.
  destruct (browser env) as [e | [[| c cards] vendor]]; try reflexivity.
  simpl. unfold mkdir. rewrite Hdir. reflexivity.
Qed.

Lemma scrape_keeps (U : unicode) (cat loc : str) (config : ScraperConfig)
    (env : TaskEnv) (fs : FS) :
  entries fs !! output_dir config = Some Dir ->
  let fs' := fst (fst (scrape_one_category_location U cat loc config env fs)) in
  entries fs' !! output_dir config = Some Dir
  /\ cwd_exists fs' = cwd_exists fs
  /\ forall p, Path_exists fs p = true -> Path_exists fs' p = true.
Proof.
  intros Hdir. pose proof (scrape_cases U cat loc config env fs Hdir) as H.
  destruct (browser env) as [e | [[| c cards] vendor]]; cbv zeta in H;
    rewrite H; simpl; auto.
  split; [| split; [reflexivity |]].
  - rewrite lookup_insert_ne; [exact Hdir | apply joinpath_neq].
  - intros [| a p]; simpl; [auto |].
    destruct (decide (joinpath (output_dir config)
                        (out_name U vendor loc (now_stamp env)) = a :: p))
      as [-> | Hne].
    + now rewrite lookup_insert_eq.
    + now rewrite lookup_insert_ne.
Qed.

(** What the loop does with one completed task. *)
Lemma collect_task (U : unicode) (cat loc : str) (config : ScraperConfig)
    (env : TaskEnv) (fs : FS) (acc : collected) :
  entries fs !! output_dir config = Some Dir ->
  let '(fs', _, r) := scrape_one_category_location U cat loc config env fs in
  collect fs' acc cat loc r
  = {| parquet_files :=
         parquet_files acc
           ++ task_files U config (cwd_exists fs) (cat, loc, env);
       stdout := stdout acc ++ task_console (cwd_exists fs) (cat, loc, env) |}.
Proof.
  intros Hdir. pose proof (scrape_cases U cat loc config env fs Hdir) as H.
  unfold task_files, task_console.
  destruct (browser env) as [e | [[| c cards] vendor]]; cbv zeta in H;
    rewrite H; unfold collect.
  - now rewrite app_nil_r.
  - simpl. destruct (cwd_exists fs); now rewrite app_nil_r.
  - rewrite Path_exists_joinpath. simpl. rewrite lookup_insert_eq.
    now rewrite app_nil_r.
Qed.

Lemma run_pool_spec (U : unicode) (config : ScraperConfig)
    (completed : list (str * str * TaskEnv)) (fs : FS)
    (wout : list message) (acc : collected) :
  entries fs !! output_dir config = Some Dir ->
  let '(fs', _, got) := run_pool U config completed fs wout acc in
  parquet_files got
  = parquet_files acc
      ++ flat_map (task_files U config (cwd_exists fs)) completed
  /\ stdout got
     = stdout acc ++ flat_map (task_console (cwd_exists fs)) completed
  /\ forall p, Path_exists fs p = true -> Path_exists fs' p = true.
Proof.
  revert fs wout acc.
  induction completed as [| [[cat loc] env] rest IH]; intros fs wout acc Hdir.
  - simpl. now rewrite !app_nil_r.
  - simpl run_pool.
    pose proof (collect_task U cat loc config env fs acc Hdir) as Hc.
    pose proof (scrape_keeps U cat loc config env fs Hdir) as Hk.
    destruct (scrape_one_category_location U cat loc config env fs)
      as [[fs1 out] r]. simpl in Hk. destruct Hk as (Hd1 & Hcwd & Hmono).
    rewrite Hc.
    match goal with
    | |- context [run_pool U config rest fs1 ?w ?a] =>
        specialize (IH fs1 w a Hd1);
        destruct (run_pool U config rest fs1 w a) as [[fs' wout'] got]
    end.
    destruct IH as (IH1 & IH2 & IH3). rewrite IH1, IH2, Hcwd. simpl.
    rewrite <- !app_assoc. auto.
Qed.

Lemma task_contribution (U : unicode) (config : ScraperConfig) (cwd : bool)
    (t : str * str * TaskEnv) :
  length (task_files U config cwd t) + length (task_console cwd t) = 1.
Proof.
  destruct t as [[cat loc] env]. unfold task_files, task_console.
  destruct (browser env) as [e | [[| c cards] vendor]]; try reflexivity.
  now destruct cwd.
Qed.

Lemma flat_map_not_raising (U : unicode) (config : ScraperConfig) (cwd : bool)
    (l : list (str * str * TaskEnv)) :
  flat_map (task_files U config cwd) (List.filter (fun t => negb (raises t)) l)
  = flat_map (task_files U config cwd) l.
Proof.
  induction l as [| [[cat loc] env] l IH]; [reflexivity |].
  simpl. unfold raises at 1. simpl.
  destruct (browser env) as [e | [cards vendor]] eqn:E; simpl.
  - exact IH.
  - rewrite E, IH. reflexivity.
Qed.

(** C9: the loop handles every completed task, each adding one path to
    [parquet_files] or one line to the console; a task that raised is
    reported with its category, its location and the error; the artifact
    of every task that saved one is collected, whatever the other tasks
    did; and the paths collected are those of the same batch without the
    raising tasks. *)
Theorem task_failure_isolated (U : unicode) (config : ScraperConfig)
    (completed : list (str * str * TaskEnv)) (fs : FS)
    (wout : list message) (acc : collected) :
  entries fs !! output_dir config = Some Dir ->
  let got := snd (run_pool U config completed fs wout acc) in
  length (parquet_files got) + length (stdout got)
  = length (parquet_files acc) + length (stdout acc) + length completed
  /\ (forall cat loc env e,
        In (cat, loc, env) completed -> browser env = inl e ->
        In (ErrorInCombo cat loc e) (stdout got))
  /\ (forall cat loc env c cards vendor,
        In (cat, loc, env) completed ->
        browser env = inr (c :: cards, vendor) ->
        In (joinpath (output_dir config)
              (out_name U vendor loc (now_stamp env)))
           (parquet_files got))
  /\ parquet_files got
     = parquet_files
         (snd (run_pool U config
                 (List.filter (fun t => negb (raises t)) completed)
                 fs wout acc)).
Proof.
  intros Hdir got. subst got.
  pose proof (run_pool_spec U config completed fs wout acc Hdir) as H.
  pose proof (run_pool_spec U config
                (List.filter (fun t => negb (raises t)) completed)
                fs wout acc Hdir) as H'.
  destruct (run_pool U config completed fs wout acc) as [[fs' wout'] got].
  destruct (run_pool U config (List.filter _ completed) fs wout acc)
    as [[fs'' wout''] got'].
  destruct H as (Hf & Hs & _). destruct H' as (Hf' & _ & _). simpl.
  split; [| split; [| split]].
  - rewrite Hf, Hs, !length_app.
    assert (E : length (flat_map (task_files U config (cwd_exists fs)) completed)
                + length (flat_map (task_console (cwd_exists fs)) completed)
                = length completed).
    { clear. induction completed as [| t l IH]; [reflexivity |].
      simpl. rewrite !length_app.
      pose proof (task_contribution U config (cwd_exists fs) t). lia. }
    lia.
  - intros cat loc env e Hin He. rewrite Hs. apply in_or_app. right.
    apply in_flat_map. exists (cat, loc, env). split; [exact Hin |].
    unfold task_console. rewrite He. now left.
  - intros cat loc env c cards vendor Hin He. rewrite Hf.
    apply in_or_app. right.
    apply in_flat_map. exists (cat, loc, env). split; [exact Hin |].
    unfold task_files. rewrite He. now left.
  - rewrite Hf, Hf'. f_equal. symmetry. apply flat_map_not_raising.
Qed.

Lemma task_failure_isolated_witness :
  let got :=
    snd (run_pool small_unicode Sample.config
           [(lit "c1", lit "Cairo", Sample.failing_env);
            (lit "c1", lit "Giza", Sample.full_env)]
           Sample.fs0 [] {| parquet_files := []; stdout := [] |}) in
  length (parquet_files got) + length (stdout got) = 0 + 0 + 2.
Proof.
  exact (proj1 (task_failure_isolated small_unicode Sample.config
                  [(lit "c1", lit "Cairo", Sample.failing_env);
                   (lit "c1", lit "Giza", Sample.full_env)]
                  Sample.fs0 [] {| parquet_files := []; stdout := [] |}
                  ltac:(vm_compute; reflexivity))).
Defined.

(** C1, what the code does: a task that extracts no product writes
    nothing and returns [Path()] without raising; while the working
    directory exists, the orchestrator's test [out_path and
    out_path.exists()] holds for it, so [Path()] is appended to
    [parquet_files] and no warning is printed. *)
Theorem empty_task_path_collected (U : unicode) (config : ScraperConfig)
    (cat loc vendor : str) (env : TaskEnv) (fs : FS) (acc : collected) :
  browser env = inr ([], vendor) ->
  cwd_exists fs = true ->
  scrape_one_category_location U cat loc config env fs
  = (fs, [NoProductsFound], inr (cat, loc, Path_here))
  /\ Path_bool Path_here && Path_exists fs Path_here = true
  /\ collect fs acc cat loc (inr (cat, loc, Path_here))
     = {| parquet_files := parquet_files acc ++ [Path_here];
          stdout := stdout acc |}.
Proof.
  intros Hb Hcwd. unfold scrape_one_category_location, collect.
  rewrite Hb. simpl. rewrite Hcwd. auto.
Qed.

Lemma empty_task_path_collected_witness :
  collect Sample.fs0 {| parquet_files := []; stdout := [] |}
    (lit "c1") (lit "Cairo") (inr (lit "c1", lit "Cairo", Path_here))
  = {| parquet_files := [Path_here]; stdout := [] |}.
Proof.
  exact (proj2 (proj2
           (empty_task_path_collected small_unicode Sample.config
              (lit "c1") (lit "Cairo") (lit "Sarai Market") Sample.empty_env
              Sample.fs0 {| parquet_files := []; stdout := [] |}
              eq_refl eq_refl))).
Defined.

(** With the warning and the exclusion the claim describes, the loop
    would leave [parquet_files] as it was; it does so only when the
    working directory is gone. *)
Lemma empty_task_excluded_without_cwd (U : unicode) (config : ScraperConfig)
    (cat loc : str) (fs : FS) (acc : collected) :
  cwd_exists fs = false ->
  collect fs acc cat loc (inr (cat, loc, Path_here))
  = {| parquet_files := parquet_files acc;
       stdout := stdout acc ++ [NoDataSaved cat loc] |}.
Proof. intros H. unfold collect. simpl. now rewrite H. Qed.

(** A batch whose only task finds nothing does not stop at "no parquet
    outputs": [combine_outputs] is called with the list [[Path()]]. *)
Lemma main_passes_dummy_path :
  exists fs out r,
    main (fun _ _ => inl (OtherError (lit "ArrowInvalid") []))
      (fun combos => map (fun '(cat, loc) => (cat, loc, Sample.empty_env)) combos)
      small_unicode Sample.config [lit "c1"] [lit "Cairo"] Sample.fs0
    = inr (fs, out, Combined [Path_here] r)
    /\ ~ In (NoDataSaved (lit "c1") (lit "Cairo")) out.
Proof.
  do 3 eexists. split; [vm_compute; reflexivity |].
  intros [H | []]. discriminate.
Qed.

(** C8 as stated fails on letters outside ASCII as well: in every
    database the Arabic name of Cairo is kept as it is, where the stated
    mapping gives seven underscores. *)
Lemma safe_name_keeps_letters (U : unicode) :
  unicode_ok U ->
  safe_name U Sample.cairo_arabic = Sample.cairo_arabic
  /\ Spec.sanitize Sample.cairo_arabic = lit "_______".
Proof.
  intros HU. split; [| vm_compute; reflexivity].
  unfold safe_name, Sample.cairo_arabic. simpl map.
  rewrite !(isalnum_arabic U HU) by reflexivity. simpl.
  unfold strip. simpl.
  assert (Hs : forall c, arabic_letter c = true -> isspace U c = false).
  { intros c Hc. destruct (isspace U c) eqn:E; [| reflexivity].
    apply (isspace_not_alnum U HU) in E.
    now rewrite (isalnum_arabic U HU c Hc) in E. }
  unfold rdropwhile. cbn [dropwhile]. rewrite !Hs by reflexivity.
  cbn [rev app dropwhile]. rewrite !Hs by reflexivity. reflexivity.
Qed.

(** ** The model at work *)

Example parse_price_arabic_indic :
  parse_price small_unicode (VStr [1636; 1637]%N) = inr (Some (float_of_Z 45)).
Proof. vm_compute. reflexivity. Qed.

Example parse_price_rejects :
  parse_price small_unicode (VStr (lit "1,234.50")) = inr None
  /\ parse_price small_unicode (VStr (lit "45.50 - 60")) = inr None
  /\ parse_price small_unicode (VStr (lit "-")) = inr None
  /\ parse_price small_unicode (VStr (lit "")) = inr None
  /\ parse_price small_unicode (VStr (lit "-0")) = inr (Some (S754_zero true)).
Proof. vm_compute. auto 6. Qed.

Example scroll_settles :
  map (fun e => (observed e, stable_rounds (after e), nudged e, stopped e))
      (fst (Sample.scroll_listed [5; 9; 9; 9; 9; 12]%Z))
  = [(5, 0, false, false); (9, 0, false, false); (9, 1, true, false);
     (9, 2, false, false); (9, 3, false, true)]%Z.
Proof. vm_compute. reflexivity. Qed.

Example scroll_empty_page :
  map (fun e => (observed e, stable_rounds (after e), nudged e, stopped e))
      (fst (Sample.scroll_listed []))
  = [(0, 1, true, false); (0, 2, false, false); (0, 3, false, true)]%Z.
Proof. vm_compute. reflexivity. Qed.

Example scroll_never_settles :
  length (fst Sample.scroll_growing) = 40
  /\ snd Sample.scroll_growing = inr 40%Z
  /\ forallb (fun e => negb (stopped e) && negb (nudged e))
       (fst Sample.scroll_growing) = true.
Proof. vm_compute. auto. Qed.

Example scroll_cut_short :
  length (fst Sample.scroll_failing) = 2
  /\ snd Sample.scroll_failing
     = inl (OtherError (lit "Error") (lit "Target closed")).
Proof. vm_compute. auto. Qed.

Example pool_of_three :
  snd (run_pool small_unicode Sample.config
         [(lit "c1", lit "Cairo", Sample.full_env);
          (lit "c1", lit "Giza", Sample.failing_env);
          (lit "c1", lit "Luxor", Sample.empty_env)]
         Sample.fs0 [] {| parquet_files := []; stdout := [] |})
  = {| parquet_files :=
         [[lit "out"; lit "Sarai_Market__Cairo__20250101_100000.parquet"];
          Path_here];
       stdout :=
         [ErrorInCombo (lit "c1") (lit "Giza")
            (OtherError (lit "TimeoutError") (lit "Page.goto: Timeout"))] |}.
Proof. vm_compute. reflexivity. Qed.

Example combined_of_two :
  let df1 := extract_products [Sample.card] (lit "c1") (lit "Cairo")
               (lit "2025-01-01T10:00:00") in
  let df2 := extract_products [Sample.card; Sample.sale_card] (lit "c1")
               (lit "Cairo") (lit "2025-01-01T10:05:00") in
  option_map
    (map (fun row => (name (record row), price_numeric row,
                      old_price_numeric row, discount_percent row)))
    (match combined_table small_unicode [df1; df2] with
     | inr full => Some full
     | inl _ => None
     end)
  = Some [(lit "Milk", binary_normalize prec emax 91 (-1) false, nan, nan);
          (lit "Cheese", float_of_Z 75, float_of_Z 100, float_of_Z 25)].
Proof. vm_compute. reflexivity. Qed.


(* ================================================================== *)
(** * Further properties of the code                                   *)
(* ================================================================== *)

(** ** Sanitized names *)

Lemma rdropwhile_incl (p : char -> bool) (s : str) (c : char) :
  In c (rdropwhile p s) -> In c s.
Proof.
  unfold rdropwhile. intros H. apply in_rev in H.
  apply dropwhile_incl in H. now apply in_rev.
Qed.

Lemma dropwhile_none (p : char -> bool) (s : str) :
  (forall c, In c s -> p c = false) -> dropwhile p s = s.
Proof.
  destruct s as [| c s]; [reflexivity |]. intros H. simpl.
  now rewrite (H c (or_introl eq_refl)).
Qed.

Lemma rdropwhile_none (p : char -> bool) (s : str) :
  (forall c, In c s -> p c = false) -> rdropwhile p s = s.
Proof.
  intros H. unfold rdropwhile.
  rewrite dropwhile_none by (intros c Hc; apply H; now apply in_rev).
  apply rev_involutive.
Qed.

Lemma safe_name_chars (U : unicode) (s : str) (c : char) :
  unicode_ok U -> In c (safe_name U s) -> name_char U c.
Proof.
  intros HU Hc. unfold safe_name, replace in Hc.
  apply in_map_iff in Hc as (k & <- & Hk).
  unfold strip in Hk. apply rdropwhile_incl, dropwhile_incl in Hk.
  apply in_map_iff in Hk as (d & <- & _).
  pose proof (kept_space U d HU) as [Hsp Heq]. cbv zeta in Hsp, Heq.
  rewrite char_in_safe in *.
  set (k := if isalnum U d || _ then d else 95%N) in *.
  assert (Hk : isalnum U k = true \/ k = 32%N \/ k = 95%N \/ k = 45%N).
  { subst k. destruct (isalnum U d) eqn:Ea; simpl; [auto |].
    destruct (N.eqb_spec d 32); simpl; [auto |].
    destruct (N.eqb_spec d 95); simpl; [auto |].
    destruct (N.eqb_spec d 45); simpl; auto. }
  destruct (N.eqb_spec k 32) as [E32 | N32].
  - unfold name_char. split; [auto |]. split; [lia |]. split; [lia |].
    now rewrite (isspace_ascii U HU) by lia.
  - assert (Hs : isspace U k = false) by exact Hsp.
    unfold name_char. split; [tauto |]. split; [exact N32 |].
    split; [| exact Hs].
    intros E47. destruct Hk as [Ha | [? | [? | ?]]]; try lia.
    rewrite E47, (isalnum_ascii U HU) in Ha by lia. discriminate.
Qed.


(** Sanitized names hold only alphanumeric characters, [_] and [-]: no
    space, no [/] and no other whitespace; they are no longer than the
    input; and the file name built from them is one path component as long
    as the time stamp is. *)
Theorem safe_name_alphabet (U : unicode) (s : str) :
  unicode_ok U ->
  Forall (name_char U) (safe_name U s)
  /\ length (safe_name U s) <= length s
  /\ (forall vendor ts,
        ~ In 47%N ts -> ~ In 47%N (out_name U vendor s ts)).
Proof.
  intros HU. split; [| split].
  - apply Forall_forall. intros c Hc. apply list_elem_of_In in Hc.
    now apply (safe_name_chars U s).
  - unfold safe_name, replace, strip. rewrite length_map.
    set (m := map _ s).
    assert (Hm : length m = length s) by (subst m; apply length_map).
    pose proof (rdropwhile_length (isspace U) (dropwhile (isspace U) m)).
    pose proof (dropwhile_length (isspace U) m).
    eapply Nat.le_trans; [eassumption |].
    eapply Nat.le_trans; [eassumption |]. now rewrite Hm.
  - intros vendor ts Hts. unfold out_name. rewrite !in_app_iff.
    intros [H | [H | [H | [H | [H | H]]]]].
    + apply (safe_name_chars U _ _ HU) in H. unfold name_char in H. tauto.
    + vm_compute in H. intuition discriminate.
    + apply (safe_name_chars U _ _ HU) in H. unfold name_char in H. tauto.
    + vm_compute in H. intuition discriminate.
    + contradiction.
    + vm_compute in H. intuition discriminate.
Qed.

Lemma safe_name_alphabet_witness :
  length (safe_name small_unicode (lit " Al/Ekbal ")) <= 10.
Proof.
  exact (proj1 (proj2 (safe_name_alphabet small_unicode (lit " Al/Ekbal ")
                         small_unicode_ok))).
Defined.

(** Sanitizing a sanitized name changes nothing. *)
Theorem safe_name_idempotent (U : unicode) (s : str) :
  unicode_ok U -> safe_name U (safe_name U s) = safe_name U s.
Proof.
  intros HU. set (t := safe_name U s).
  assert (Ht : forall c, In c t -> name_char U c)
    by (intros c; apply (safe_name_chars U s c HU)).
  clearbody t. unfold safe_name.
  assert (E1 : map (fun ch => if isalnum U ch || char_in ch (lit " _-")
                              then ch else 95%N) t = t).
  { rewrite <- (map_id t) at 2. apply map_ext_in. intros c Hc.
    rewrite char_in_safe.
    destruct (Ht c Hc) as ([Ha | [-> | ->]] & _); [now rewrite Ha | |];
      now rewrite orb_true_r. }
  rewrite E1. unfold strip.
  rewrite (dropwhile_none (isspace U) t) by (intros c Hc; apply (Ht c Hc)).
  rewrite (rdropwhile_none (isspace U) t) by (intros c Hc; apply (Ht c Hc)).
  unfold replace. rewrite <- (map_id t) at 2. apply map_ext_in.
  intros c Hc. destruct (Ht c Hc) as (_ & Hn & _).
  now destruct (N.eqb_spec c 32).
Qed.

Lemma safe_name_idempotent_witness :
  safe_name small_unicode (safe_name small_unicode (lit "Sarai Market / Al-Ekbal!"))
  = safe_name small_unicode (lit "Sarai Market / Al-Ekbal!").
Proof. exact (safe_name_idempotent _ _ small_unicode_ok). Defined.


(** ** What a task writes *)







(** ** The combiner *)

Section CombineProperties.
Variable read_parquet : Path -> result DataFrame.

Lemma read_all_frames (files : list Path) :
  fst (read_all read_parquet files) = frames_read read_parquet files.
Proof.
  induction files as [| p files IH]; [reflexivity |]. simpl.
  destruct (read_all read_parquet files) as [dfs out]. simpl in IH.
  destruct (read_parquet p); simpl; now rewrite IH.
Qed.

Lemma read_all_messages (files : list Path) (m : message) :
  In m (snd (read_all read_parquet files))
  <-> exists p e, m = FailedToRead p e /\ In p files /\ read_parquet p = inl e.
Proof.
  induction files as [| p files IH]; simpl.
  - split; [tauto | intros (p & e & _ & [] & _)].
  - destruct (read_all read_parquet files) as [dfs out]. simpl in IH.
    destruct (read_parquet p) as [e | df] eqn:E; simpl; rewrite ?IH.
    + split.
      * intros [<- | (q & e' & -> & Hq & He)]; [exists p, e; auto |].
        exists q, e'. auto.
      * intros (q & e' & -> & [<- | Hq] & He).
        -- left. congruence.
        -- right. eauto.
    + split.
      * intros (q & e' & -> & Hq & He). exists q, e'. auto.
      * intros (q & e' & -> & [<- | Hq] & He); [congruence |]. eauto.
Qed.

Lemma frames_read_filter (files : list Path) :
  frames_read read_parquet (List.filter (readable read_parquet) files)
  = frames_read read_parquet files.
Proof.
  induction files as [| p files IH]; [reflexivity |]. simpl.
  unfold readable at 1. destruct (read_parquet p) eqn:E; simpl; [exact IH |].
  now rewrite E, IH.
Qed.

Lemma frames_read_nil (files : list Path) :
  frames_read read_parquet files = []
  <-> forall p, In p files -> readable read_parquet p = false.
Proof.
  induction files as [| p files IH]; simpl; [tauto |].
  unfold readable at 1. destruct (read_parquet p) eqn:E; simpl.
  - rewrite IH. split.
    + intros H q [<- | Hq]; [unfold readable; now rewrite E | now apply H].
    + intros H q Hq. apply H. auto.
  - split; [discriminate |]. intros H.
    specialize (H p (or_introl eq_refl)). unfold readable in H.
    rewrite E in H. discriminate.
Qed.

(** What [combine_outputs] returns, in full. *)
Lemma combine_outputs_spec (U : unicode) (files : list Path)
    (config : ScraperConfig) :
  exists out,
    combine_outputs read_parquet U files config
    = inr (out, table_of U (frames_read read_parquet files),
           joinpath (output_dir config) (combined_filename config))
    /\ (forall p e, In p files -> read_parquet p = inl e ->
          In (FailedToRead p e) out).
Proof.
  unfold combine_outputs. destruct files as [| p0 files0] eqn:Ef.
  - eexists. split; [reflexivity | intros p e []].
  - rewrite <- Ef. clear Ef.
    pose proof (read_all_frames files) as Hf.
    pose proof (read_all_messages files) as Hm.
    destruct (read_all read_parquet files) as [dfs out]. simpl in Hf, Hm.
    rewrite <- Hf.
    assert (Hout : forall l p e, In p files -> read_parquet p = inl e ->
                                 In (FailedToRead p e) (out ++ l)).
    { intros l p e Hp He. apply in_or_app. left. apply Hm. eauto. }
    destruct dfs as [| df dfs].
    + eexists. split; [reflexivity | apply Hout].
    + unfold table_of, combined_table.
      destruct (derive_returns U (drop_duplicates (concat (df :: dfs))))
        as (full & E & _).
      rewrite E. cbn [mbind result_bind bind].
      eexists. split; [reflexivity | apply Hout].
Qed.

Lemma table_of_spec (U : unicode) (dfs : list DataFrame) :
  match dfs with
  | [] => table_of U dfs = None
  | _ :: _ => exists full, table_of U dfs = Some full
                           /\ map record full = drop_duplicates (concat dfs)
  end.
Proof.
  destruct dfs as [| df dfs]; [reflexivity |].
  unfold table_of, combined_table.
  destruct (derive_returns U (drop_duplicates (concat (df :: dfs))))
    as (full & E & Hrec & _).
  rewrite E. eauto.
Qed.

Lemma read_all_none (files : list Path) :
  (forall p, In p files -> readable read_parquet p = false) ->
  fst (read_all read_parquet files) = []
  /\ length (snd (read_all read_parquet files)) = length files.
Proof.
  induction files as [| p files IH]; intros H; [split; reflexivity |].
  simpl. destruct IH as [IH1 IH2]; [intros q Hq; apply H; now right |].
  destruct (read_all read_parquet files) as [dfs out]. simpl in IH1, IH2.
  pose proof (H p (or_introl eq_refl)) as Hp. unfold readable in Hp.
  destruct (read_parquet p); [| discriminate].
  simpl. split; [exact IH1 | now rewrite IH2].
Qed.

(** A file that cannot be read is reported and otherwise ignored.
    [combine_outputs] ends on a list of files as it ends on the readable
    files of the list: with the same exception, or with the same table
    and the same path.  When it returns, every file that could not be
    read is named in a line of the console with the exception of its
    reading.  When no file can be read it does not raise and writes no
    table: it returns the path of the combined file after one line for
    each file and the warning that no frame was read (after the warning
    that there is no file, on an empty list). *)
Theorem combine_outputs_skips_unreadable (U : unicode) (files : list Path)
    (config : ScraperConfig) :
  match combine_outputs read_parquet U files config,
        combine_outputs read_parquet U
          (List.filter (readable read_parquet) files) config with
  | inr (_, table, path), inr (_, table', path') =>
      table = table' /\ path = path'
  | inl e, inl e' => e = e'
  | _, _ => False
  end
  /\ (forall out table path,
        combine_outputs read_parquet U files config = inr (out, table, path) ->
        forall p e, In p files -> read_parquet p = inl e ->
          In (FailedToRead p e) out)
  /\ ((forall p, In p files -> readable read_parquet p = false) ->
      exists out,
        combine_outputs read_parquet U files config
        = inr (out, None,
               joinpath (output_dir config) (combined_filename config))
        /\ (files = [] -> out = [NoParquetFiles])
        /\ (files <> [] ->
            exists failed,
              out = failed ++ [NoValidDataframes]
              /\ length failed = length files
              /\ forall m, In m failed <->
                   exists p e, m = FailedToRead p e /\ In p files
                               /\ read_parquet p = inl e)).
Proof.
  destruct (combine_outputs_spec U files config) as (out & E & Hm).
  destruct (combine_outputs_spec U (List.filter (readable read_parquet) files)
              config) as (out' & E' & _).
  rewrite frames_read_filter in E'.
  split; [rewrite E, E'; auto |].
  split.
  { intros out0 table path E0 p e Hp He. rewrite E in E0.
    inversion E0; subst. now apply (Hm p e). }
  intros Hnone. unfold combine_outputs.
  destruct files as [| p0 files0] eqn:Ef.
  { eexists. split; [reflexivity |]. split; [reflexivity | congruence]. }
  rewrite <- Ef in *. clear E E' Hm out out'.
  pose proof (read_all_none files Hnone) as [Hf Hl].
  pose proof (read_all_messages files) as Hmsg.
  destruct (read_all read_parquet files) as [dfs out]. simpl in Hf, Hl, Hmsg.
  subst dfs. eexists. split; [reflexivity |].
  split; [intros H; rewrite Ef in H; discriminate |].
  intros _. exists out. split; [reflexivity |]. split; [exact Hl |].
  intros m. apply Hmsg.
Qed.
Lemma frames_read_perm (files files' : list Path) :
  Permutation files files' ->
  Permutation (concat (frames_read read_parquet files))
              (concat (frames_read read_parquet files')).
Proof.
  intros H.
  assert (E : forall l,
             concat (frames_read read_parquet l)
             = flat_map (fun p => match read_parquet p with
                                  | inr df => df
                                  | inl _ => []
                                  end) l).
  { induction l as [| p l IH]; [reflexivity |]. unfold frames_read. simpl.
    rewrite concat_app. fold (frames_read read_parquet l). rewrite IH.
    destruct (read_parquet p); simpl; now rewrite ?app_nil_r. }
  rewrite !E. now apply Permutation_flat_map.
Qed.



(** The order of the artifacts does not change the size of the combined
    table nor the keys in it, only which of two rows with one key is kept:
    in whatever order the tasks complete, the table has one row for each
    key found in the frames read. *)
Theorem combined_rows_order_independent (U : unicode)
    (files files' : list Path) (config : ScraperConfig) :
  Permutation files files' ->
  let t := written (combine_outputs read_parquet U files config) in
  let t' := written (combine_outputs read_parquet U files' config) in
  option_map (@length CombinedRow) t = option_map (@length CombinedRow) t'
  /\ table_keys t = table_keys t'
  /\ (forall p df r, In p files -> read_parquet p = inr df -> In r df ->
        key_of r ∈ table_keys t).
Proof.
  intros Hperm t t'.
  destruct (combine_outputs_spec U files config) as (o & E0 & _).
  destruct (combine_outputs_spec U files' config) as (o' & E0' & _).
  subst t t'. rewrite E0, E0'. cbn [written]. clear E0 E0'.
  assert (Hfr : forall p df, In p files -> read_parquet p = inr df ->
                  In df (frames_read read_parquet files)).
  { intros p df Hp Hr. unfold frames_read. apply in_flat_map.
    exists p. split; [exact Hp |]. rewrite Hr. now left. }
  pose proof (frames_read_perm files files' Hperm) as Hc.
  set (F := frames_read read_parquet files) in *.
  set (F' := frames_read read_parquet files') in *.
  assert (Hnil : F = [] <-> F' = []).
  { unfold F, F'. rewrite !frames_read_nil. split; intros H q Hq; apply H.
    - now apply (Permutation_in q (Permutation_sym Hperm)).
    - now apply (Permutation_in q Hperm). }
  pose proof (table_of_spec U F) as Ht.
  pose proof (table_of_spec U F') as Ht'.
  destruct F as [| df dfs] eqn:EF.
  - rewrite (proj1 Hnil eq_refl) in *. rewrite Ht.
    repeat split. intros p df r Hp Hr. destruct (Hfr p df Hp Hr).
  - destruct F' as [| df' dfs'] eqn:EF';
      [destruct Hnil as [_ Hn]; discriminate (Hn eq_refl) |].
    destruct Ht as (full & -> & Hrec). destruct Ht' as (full' & -> & Hrec').
    assert (Hk : forall k,
               In k (map key_of (drop_duplicates (concat (df :: dfs))))
               <-> In k (map key_of (drop_duplicates (concat (df' :: dfs'))))).
    { intros k. unfold drop_duplicates. rewrite !drop_from_key_In.
      split; intros [H Hk]; (split; [| exact Hk]);
        apply in_map_iff in H as (r & <- & Hr); apply in_map.
      - now apply (Permutation_in r Hc).
      - now apply (Permutation_in r (Permutation_sym Hc)). }
    split; [| split].
    + simpl. f_equal.
      rewrite <- (length_map record full), <- (length_map record full').
      rewrite Hrec, Hrec'.
      rewrite <- (length_map key_of (drop_duplicates (concat (df :: dfs)))).
      rewrite <- (length_map key_of (drop_duplicates (concat (df' :: dfs')))).
      apply Permutation_length. apply NoDup_Permutation.
      * apply drop_from_NoDup.
      * apply drop_from_NoDup.
      * intros k. rewrite !list_elem_of_In. apply Hk.
    + unfold table_keys, keys. rewrite Hrec, Hrec'. apply set_eq.
      intros k. rewrite !elem_of_list_to_set, !list_elem_of_In. apply Hk.
    + intros p d r Hp Hd Hr. apply (Hfr p d Hp) in Hd.
      unfold table_keys, keys. rewrite Hrec.
      rewrite elem_of_list_to_set, list_elem_of_In.
      unfold drop_duplicates. rewrite drop_from_key_In.
      split; [| apply not_elem_of_empty].
      apply in_map. apply in_concat. eauto.
Qed.
End CombineProperties.


Lemma combined_rows_order_independent_witness :
  table_keys (written (combine_outputs (Sample.read_stored Sample.stored)
                         small_unicode [[lit "a"]; [lit "b"]] Sample.config))
  = table_keys (written (combine_outputs (Sample.read_stored Sample.stored)
                           small_unicode [[lit "b"]; [lit "a"]]
                           Sample.config)).
Proof.
  exact (proj1 (proj2
           (combined_rows_order_independent (Sample.read_stored Sample.stored)
              small_unicode [[lit "a"]; [lit "b"]] [[lit "b"]; [lit "a"]]
              Sample.config (perm_swap _ _ [])))).
Defined.


(** ** The orchestrator *)

Section MainProperties.
Variable read_parquet : FS -> Path -> result DataFrame.
Variable as_completed : list (str * str) -> list (str * str * TaskEnv).

Lemma mkdir_cwd (fs fs' : FS) (d : Path) :
  mkdir fs d = inr fs' -> cwd_exists fs' = cwd_exists fs.
Proof.
  unfold mkdir. destruct (entries fs !! d) as [[| rows] |]; intros H;
    inversion H; reflexivity.
Qed.

Lemma mkdirs_made (config : ScraperConfig) (fs fs1 fs2 : FS) :
  mkdir fs (output_dir config) = inr fs1 ->
  mkdir fs1 (log_dir config) = inr fs2 ->
  entries fs2 !! output_dir config = Some Dir
  /\ cwd_exists fs2 = cwd_exists fs.
Proof.
  intros H1 H2.
  pose proof (mkdir_makes _ _ _ H1) as [Hd _].
  pose proof (mkdir_makes _ _ _ H2) as [_ Hk]. apply Hk in Hd.
  split; [exact Hd |].
  now rewrite (mkdir_cwd _ _ _ H2), (mkdir_cwd _ _ _ H1).
Qed.

Lemma main_run (U : unicode) (config : ScraperConfig)
    (categories locations : list str) (fs fs1 fs2 : FS) :
  mkdir fs (output_dir config) = inr fs1 ->
  mkdir fs1 (log_dir config) = inr fs2 ->
  categories <> [] -> locations <> [] ->
  let done := as_completed (combos categories locations) in
  let files := flat_map (task_files U config (cwd_exists fs)) done in
  let console :=
    TotalCombos (length categories * length locations)
      :: flat_map (task_console (cwd_exists fs)) done in
  let fs' :=
    fst (fst (run_pool U config done fs2 []
                {| parquet_files := [];
                   stdout := [TotalCombos
                                (length (combos categories locations))] |})) in
  main read_parquet as_completed U config categories locations fs
  = inr (fs',
         match files with
         | [] => console ++ [NoParquetOutputs]
         | _ :: _ => console
         end,
         match files with
         | [] => ReturnedEarly
         | _ :: _ =>
             Combined files (combine_outputs (read_parquet fs') U files config)
         end).
Proof.
  intros H1 H2 Hc Hl done files console.
  destruct (mkdirs_made config fs fs1 fs2 H1 H2) as [Hd Hcwd].
  unfold main. rewrite H1. cbn [mbind result_bind bind]. rewrite H2.
  cbn [mbind result_bind bind].
  destruct categories as [| c cs]; [contradiction |].
  destruct locations as [| l ls]; [contradiction |].
  pose proof (run_pool_spec U config done fs2 []
                {| parquet_files := [];
                   stdout := [TotalCombos
                                (length (combos (c :: cs) (l :: ls)))] |}
                Hd) as Hrun.
  fold done.
  destruct (run_pool U config done fs2 [] _) as [[fs' wout] got].
  destruct Hrun as (Hf & Hs & Hp). cbn [parquet_files stdout app] in Hf, Hs.
  rewrite Hcwd in Hf, Hs. fold files in Hf.
  assert (Hn : length (combos (c :: cs) (l :: ls))
               = length (c :: cs) * length (l :: ls))
    by apply combos_length.
  rewrite Hn in Hs. fold console in Hs. cbn [fst].
  rewrite Hf, Hs. destruct files; reflexivity.
Qed.

(** With both lists non-empty, the two directories made and a positive
    number of workers (the executor refuses any other), [main] does not
    raise, and how it ends is decided by the files the tasks contribute,
    in completion order: with none it prints the abort message last and
    returns without combining; otherwise it passes exactly these files,
    in this order, to [combine_outputs], which reads them from the file
    system the tasks left.  Of the lines of [main] itself, the console
    shows the total first, then one line for each task that contributed
    no file (the line on the number of workers is left out of the
    model). *)
Theorem main_combines_what_tasks_saved (U : unicode) (config : ScraperConfig)
    (categories locations : list str) (fs fs1 fs2 : FS) :
  (0 < workers config)%Z ->
  mkdir fs (output_dir config) = inr fs1 ->
  mkdir fs1 (log_dir config) = inr fs2 ->
  categories <> [] -> locations <> [] ->
  let done := as_completed (combos categories locations) in
  let files := flat_map (task_files U config (cwd_exists fs)) done in
  let console :=
    TotalCombos (length categories * length locations)
      :: flat_map (task_console (cwd_exists fs)) done in
  exists fs',
    (forall p, Path_exists fs2 p = true -> Path_exists fs' p = true)
    /\ main read_parquet as_completed U config categories locations fs
       = inr (fs',
              match files with
              | [] => console ++ [NoParquetOutputs]
              | _ :: _ => console
              end,
              match files with
              | [] => ReturnedEarly
              | _ :: _ =>
                  Combined files
                    (combine_outputs (read_parquet fs') U files config)
              end).
Proof.
  intros _ H1 H2 Hc Hl done files console.
  pose proof (main_run U config categories locations fs fs1 fs2 H1 H2 Hc Hl)
    as Hm. cbv zeta in Hm.
  destruct (mkdirs_made config fs fs1 fs2 H1 H2) as [Hd _].
  pose proof (run_pool_spec U config done fs2 []
                {| parquet_files := [];
                   stdout := [TotalCombos
                                (length (combos categories locations))] |}
                Hd) as Hrun.
  fold done in Hm.
  destruct (run_pool U config done fs2 [] _) as [[fs' wout] got].
  destruct Hrun as (_ & _ & Hp). cbn [fst] in Hm.
  exists fs'. split; [exact Hp | exact Hm].
Qed.


End MainProperties.


Lemma main_combines_what_tasks_saved_witness :
  exists fs',
    main Sample.read_stored
      (fun combos => map (fun '(cat, loc) => (cat, loc, Sample.failing_env))
                       combos)
      small_unicode Sample.config [lit "c1"] [lit "Cairo"; lit "Giza"]
      Sample.fs0
    = inr (fs',
           [TotalCombos 2;
            ErrorInCombo (lit "c1") (lit "Cairo")
              (OtherError (lit "TimeoutError") (lit "Page.goto: Timeout"));
            ErrorInCombo (lit "c1") (lit "Giza")
              (OtherError (lit "TimeoutError") (lit "Page.goto: Timeout"));
            NoParquetOutputs],
           ReturnedEarly).
Proof.
  destruct (main_combines_what_tasks_saved Sample.read_stored
              (fun combos =>
                 map (fun '(cat, loc) => (cat, loc, Sample.failing_env)) combos)
              small_unicode Sample.config [lit "c1"] [lit "Cairo"; lit "Giza"]
              Sample.fs0 _ _ eq_refl eq_refl eq_refl
              ltac:(discriminate) ltac:(discriminate)) as (fs' & _ & E).
  exists fs'. exact E.
Defined.


(** ** Scrolling a page that has settled *)

Section SettledPage.
Context {World : Type}.
Variable scroll_to_bottom : World -> result World.
Variable uniform : float -> float -> World -> float * World.
Variable sleep : float -> World -> result World.
Variable count_cards : World -> result (Z * World).
Variable scroll_up : World -> result World.
(** The page shows [c] cards whenever they are counted, and no call on
    it raises. *)
Variable c : Z.
Hypothesis bottom_ok : forall w, exists w', scroll_to_bottom w = inr w'.
Hypothesis sleep_ok : forall d w, exists w', sleep d w = inr w'.
Hypothesis count_ok : forall w, exists w', count_cards w = inr (c, w').
Hypothesis up_ok : forall w, exists w', scroll_up w = inr w'.

Lemma settled_cycle (config : ScraperConfig) (cyc : Z) (st : scroll_state)
    (w : World) :
  exists w',
    scroll_cycle scroll_to_bottom uniform sleep count_cards scroll_up
      config cyc st w
    = inr ({| cycle := cyc; observed := c; after := scroll_update st c;
              nudged := (stable_rounds (scroll_update st c) =? 1)%Z;
              stopped := (rounds_stable config
                          <=? stable_rounds (scroll_update st c))%Z |}, w').
Proof.
  unfold scroll_cycle.
  destruct (bottom_ok w) as [w1 ->]. cbn [mbind result_bind bind].
  destruct (uniform _ _ w1) as [d w2].
  destruct (sleep_ok d w2) as [w3 ->]. cbn [mbind result_bind bind].
  destruct (count_ok w3) as [w4 ->]. cbn [mbind result_bind bind].
  destruct (stable_rounds (scroll_update st c) =? 1)%Z.
  - destruct (up_ok w4) as [w5 ->]. cbn [mbind result_bind bind ret].
    eexists. reflexivity.
  - cbn [mbind result_bind bind ret]. eexists. reflexivity.
Qed.

Lemma settled_loop (config : ScraperConfig) (a n : nat) (st : scroll_state)
    (w : World) :
  let s1 := stable_rounds (scroll_update st c) in
  let '(log, r) :=
    scroll_loop scroll_to_bottom uniform sleep count_cards scroll_up
      config (map Z.of_nat (seq a n)) st w in
  (exists w', r = inr w')
  /\ length log
     = Nat.min n (Z.to_nat (Z.max 1 (rounds_stable config - s1 + 1)))
  /\ forall e, In e log ->
       observed e = c
       /\ stable_rounds (after e) = (s1 + (cycle e - Z.of_nat a))%Z.
Proof.
  revert a st w. induction n as [| n IH]; intros a st w s1.
  - simpl. split; [eauto |]. split; [reflexivity | intros e []].
  - cbn [seq map scroll_loop].
    destruct (settled_cycle config (Z.of_nat a) st w) as [w' ->].
    cbn [stopped after]. fold s1.
    destruct (Z.leb_spec (rounds_stable config) s1) as [Hle | Hgt].
    + split; [eauto |]. split; [cbn [length]; lia |].
      intros e [<- | []]. cbn [observed after cycle]. fold s1.
      split; [reflexivity | lia].
    + specialize (IH (S a) (scroll_update st c) w').
      assert (Hs : stable_rounds (scroll_update (scroll_update st c) c)
                   = (s1 + 1)%Z).
      { subst s1. unfold scroll_update.
        destruct (c =? last_count st)%Z eqn:E; cbn [last_count stable_rounds];
          [rewrite E | rewrite Z.eqb_refl]; reflexivity. }
      cbv zeta in IH. rewrite Hs in IH.
      destruct (scroll_loop _ _ _ _ _ config _ (scroll_update st c) w')
        as [log r].
      destruct IH as (Hr & Hlen & Hall).
      split; [exact Hr |]. split; [cbn [length]; rewrite Hlen; lia |].
      intros e [<- | He].
      * cbn [observed after cycle]. fold s1. split; [reflexivity | lia].
      * destruct (Hall e He) as [Ho Hst]. split; [exact Ho | lia].
Qed.

(** On a page that has settled (it shows the same number [c] of cards
    whenever they are counted, and no call raises), the stabilizer stops
    by itself: it performs [rounds_stable + 1] cycles, or [rounds_stable]
    when the page is empty (the first count of 0 already equals the
    initial [last_count]), at least one cycle if any is allowed, and never
    more than [max_scroll_cycles]; it makes the upward scroll in no cycle
    but the second (the first on an empty page). *)
Theorem scroll_on_settled_page (config : ScraperConfig) (w : World) :
  let first_stable := if (c =? 0)%Z then 1%Z else 2%Z in
  let '(log, r) :=
    human_like_scroll scroll_to_bottom uniform sleep count_cards scroll_up
      config w in
  (exists w', r = inr w')
  /\ Z.of_nat (length log)
     = Z.min (Z.max 0 (max_scroll_cycles config))
             (Z.max 1 (rounds_stable config + first_stable - 1))
  /\ forall e, In e log ->
       observed e = c
       /\ stable_rounds (after e) = (cycle e - first_stable + 1)%Z
       /\ nudged e = (cycle e =? first_stable)%Z.
Proof.
  intros first_stable. unfold human_like_scroll, range1.
  pose proof (settled_loop config 1 (Z.to_nat (max_scroll_cycles config))
                {| last_count := 0; stable_rounds := 0 |} w) as H.
  pose proof (scroll_loop_rule scroll_to_bottom uniform sleep count_cards
                scroll_up config
                (map (fun i => Z.of_nat i)
                   (seq 1 (Z.to_nat (max_scroll_cycles config))))
                {| last_count := 0; stable_rounds := 0 |} w) as Hrule.
  cbv zeta in H.
  assert (Hs : stable_rounds
                 (scroll_update {| last_count := 0; stable_rounds := 0 |} c)
               = (2 - first_stable)%Z).
  { subst first_stable. unfold scroll_update. cbn [last_count stable_rounds].
    destruct (c =? 0)%Z; reflexivity. }
  rewrite Hs in H.
  destruct (scroll_loop _ _ _ _ _ config _ _ w) as [log r].
  destruct H as (Hr & Hlen & Hall). cbn [fst] in Hrule.
  split; [exact Hr |]. split; [lia |].
  intros e He. destruct (Hall e He) as [Ho Hst].
  split; [exact Ho |]. split; [lia |].
  assert (Hn : nudged e = (stable_rounds (after e) =? 1)%Z).
  { clear -Hrule He. revert Hrule.
    generalize {| last_count := 0; stable_rounds := 0 |}.
    induction log as [| x log IH]; [destruct He |].
    intros st (_ & _ & Hn & _ & _ & Hrest).
    destruct He as [<- | He]; [| eapply IH; eauto].
    destruct (nudged x) eqn:E.
    - symmetry. apply Z.eqb_eq. now apply Hn.
    - symmetry. apply Z.eqb_neq. intros H1. apply Hn in H1. discriminate. }
  rewrite Hn, Hst.
  destruct (Z.eqb_spec (2 - first_stable + (cycle e - Z.of_nat 1)) 1);
    destruct (Z.eqb_spec (cycle e) first_stable); auto; lia.
Qed.
End SettledPage.

Lemma scroll_on_settled_page_witness :
  Z.of_nat
    (length (fst (human_like_scroll (fun w : unit => inr w)
                    (fun a _ w => (a, w)) (fun _ w => inr w)
                    (fun w => inr (9%Z, w)) (fun w => inr w)
                    Sample.config tt)))
  = Z.min (Z.max 0 (max_scroll_cycles Sample.config))
          (Z.max 1 (rounds_stable Sample.config + 2 - 1)).
Proof.
  pose proof (scroll_on_settled_page (fun w : unit => inr w)
                (fun a _ w => (a, w)) (fun _ w => inr w)
                (fun w => inr (9%Z, w)) (fun w => inr w) 9%Z
                (fun w => ex_intro _ w eq_refl)
                (fun _ w => ex_intro _ w eq_refl)
                (fun w => ex_intro _ w eq_refl)
                (fun w => ex_intro _ w eq_refl)
                Sample.config tt) as H.
  cbv zeta in H.
  destruct (human_like_scroll _ _ _ _ _ Sample.config tt) as [log r].
  exact (proj1 (proj2 H)).
Defined.


(** ** Prices that are not numbers *)

Lemma dropwhile_filter (p q : char -> bool) (s : str) :
  (forall c, q c = true -> p c = false) ->
  List.filter q (dropwhile p s) = List.filter q s.
Proof.
  intros H. induction s as [| c s IH]; [reflexivity |]. simpl.
  destruct (p c) eqn:Ep; [| reflexivity].
  rewrite IH. destruct (q c) eqn:Eq; [| reflexivity].
  apply H in Eq. congruence.
Qed.

Lemma rdropwhile_filter (p q : char -> bool) (s : str) :
  (forall c, q c = true -> p c = false) ->
  List.filter q (rdropwhile p s) = List.filter q s.
Proof.
  intros H. unfold rdropwhile.
  rewrite List.filter_rev, (dropwhile_filter p q _ H), List.filter_rev.
  apply rev_involutive.
Qed.

Lemma span_digits_filter (q : char -> bool) (s : str) :
  (forall c, q c = true -> ascii_digit c = false) ->
  List.filter q (snd (span_digits s)) = List.filter q s.
Proof.
  intros H. induction s as [| c s IH]; [reflexivity |]. simpl.
  destruct (ascii_digit c) eqn:Ed; [| reflexivity].
  destruct (span_digits s) as [ds r]. simpl in *. rewrite IH.
  destruct (q c) eqn:Eq; [| reflexivity]. apply H in Eq. congruence.
Qed.

(** Of the characters that are neither a digit nor a sign, a string that
    [float] accepts holds at most one, a point, once the whitespace at
    its ends is removed. *)
Lemma float_of_str_shape (U : unicode) (s : str) (f : float)
    (q : char -> bool) :
  (forall c, q c = true -> ascii_digit c = false /\ c <> 45%N /\ c <> 43%N) ->
  float_of_str U s = inr f ->
  let a := rdropwhile c_isspace (dropwhile c_isspace (to_ascii U s)) in
  List.filter q a = [] \/ List.filter q a = List.filter q [46%N].
Proof.
  intros Hq. unfold float_of_str.
  set (a := rdropwhile c_isspace (dropwhile c_isspace (to_ascii U s))).
  set (sb := match a with
             | 45%N :: r => (true, r)
             | 43%N :: r => (false, r)
             | _ => (false, a)
             end).
  assert (Hb : List.filter q (snd sb) = List.filter q a).
  { subst sb. destruct a as [| c r]; [reflexivity |].
    assert (H45 : q 45%N = false).
    { destruct (q 45%N) eqn:E; [| reflexivity].
      apply Hq in E. now destruct E as (_ & E & _). }
    assert (H43 : q 43%N = false).
    { destruct (q 43%N) eqn:E; [| reflexivity].
      apply Hq in E. now destruct E as (_ & _ & E). }
    repeat match goal with
           | |- context [match ?x with _ => _ end] => destruct x
           end; cbn [snd List.filter]; rewrite ?H45, ?H43; reflexivity. }
  destruct sb as [neg body]. cbn [snd] in Hb.
  pose proof (span_digits_filter q body (fun c H => proj1 (Hq c H))) as Hi.
  destruct (span_digits body) as [ip r1]. cbn [snd] in Hi.
  set (fr := match r1 with
             | 46%N :: r => span_digits r
             | _ => ([], r1)
             end).
  assert (Hf : List.filter q r1 = List.filter q (snd fr)
               \/ List.filter q r1
                  = List.filter q [46%N] ++ List.filter q (snd fr)).
  { subst fr. destruct r1 as [| c r]; [now left |].
    assert (D : List.filter q (46%N :: r)
                = List.filter q [46%N] ++ List.filter q (snd (span_digits r))).
    { rewrite (span_digits_filter q r (fun c H => proj1 (Hq c H))).
      cbn [List.filter]. now destruct (q 46%N). }
    repeat match goal with
           | |- context [match ?x with _ => _ end] => destruct x
           end; first [now left | right; exact D]. }
  destruct fr as [fp r2]. cbn [snd] in Hf.
  destruct r2; [| discriminate]. intros _. cbv zeta.
  rewrite <- Hb, <- Hi. cbn [List.filter] in Hf.
  destruct Hf as [-> | ->]; [now left | right].
  now rewrite app_nil_r.
Qed.

(** The conversion to ASCII keeps every ['.'], unless it cuts the string
    at a character that is no digit, which leaves a ['?']. *)
Lemma to_ascii_points (U : unicode) (s : str) :
  List.filter (fun c => (c =? 46)%N) (to_ascii U s)
  = List.filter (fun c => (c =? 46)%N) s
  \/ List.filter (fun c => (c =? 63)%N) (to_ascii U s) <> [].
Proof.
  unfold to_ascii.
  destruct (forallb (fun c => (c <? 128)%N) s); [now left |].
  induction s as [| c r IH]; [now left |]. cbn [transform_decimal_and_space].
  destruct (N.ltb_spec c 127) as [Hlt | Hge].
  - cbn [List.filter]. destruct IH as [IH | IH].
    + left. now rewrite IH.
    + right. destruct (c =? 63)%N; [discriminate | exact IH].
  - assert (Hc : (c =? 46)%N = false) by (apply N.eqb_neq; lia).
    destruct (isspace U c).
    + cbn [List.filter]. rewrite Hc. destruct IH as [IH | IH].
      * left. exact IH.
      * right. exact IH.
    + destruct (todecimal U c) as [d |].
      * cbn [List.filter]. rewrite Hc.
        assert (Hd : (48 + d =? 46)%N = false) by (apply N.eqb_neq; lia).
        rewrite Hd. destruct IH as [IH | IH].
        -- left. exact IH.
        -- right. destruct (48 + d =? 63)%N; [discriminate | exact IH].
      * right. discriminate.
Qed.

Lemma char_in_price (c : char) :
  char_in c (lit ".,-")
  = ((c =? 46) || ((c =? 44) || ((c =? 45) || false)))%N.
Proof. reflexivity. Qed.

(** A price text with two or more of ['.'] and [','], such as one with a
    thousands separator, has no numeric value: [float] rejects it, and
    [parse_price] turns the rejection into [None]. *)
Theorem parse_price_two_separators (U : unicode) (s : str) :
  2 <= separators s -> parse_price U (VStr s) = inr None.
Proof.
  unfold separators, parse_price. intros Hsep.
  set (digits := List.filter _ s).
  destruct digits as [| d0 ds] eqn:Ed; [reflexivity |]. rewrite <- Ed.
  destruct (float_of_str U (replace 44 46 digits)) as [e | f] eqn:E.
  - apply float_of_str_raises in E. now rewrite E.
  - exfalso.
    assert (Hp : List.filter (fun c => (c =? 46)%N) (replace 44 46 digits)
                 = map (fun _ => 46%N)
                     (List.filter (fun ch => (ch =? 46)%N || (ch =? 44)%N) s)).
    { subst digits. clear. induction s as [| c s IH]; [reflexivity |].
      cbn [List.filter]. rewrite char_in_price.
      destruct (N.eqb_spec c 46) as [-> | H46].
      - rewrite orb_true_r. cbn [orb]. unfold replace in *.
        cbn [map List.filter]. rewrite IH. reflexivity.
      - destruct (N.eqb_spec c 44) as [-> | H44].
        + rewrite orb_true_r. cbn [orb]. unfold replace in *.
          cbn [map List.filter]. rewrite IH. reflexivity.
        + cbn [orb]. rewrite orb_false_r.
          destruct (isdigit U c || (c =? 45)%N) eqn:Ek; [| exact IH].
          unfold replace in *. cbn [map List.filter].
          destruct (N.eqb_spec c 44); [contradiction |].
          destruct (N.eqb_spec c 46); [contradiction | exact IH]. }
    assert (H46 : forall c, (c =? 46)%N = true ->
                    ascii_digit c = false /\ c <> 45%N /\ c <> 43%N).
    { intros c Hc. apply N.eqb_eq in Hc. subst c.
      split; [reflexivity | split; discriminate]. }
    assert (H63 : forall c, (c =? 63)%N = true ->
                    ascii_digit c = false /\ c <> 45%N /\ c <> 43%N).
    { intros c Hc. apply N.eqb_eq in Hc. subst c.
      split; [reflexivity | split; discriminate]. }
    pose proof (float_of_str_shape U _ f _ H46 E) as S46.
    pose proof (float_of_str_shape U _ f _ H63 E) as S63.
    cbv zeta in S46, S63.
    rewrite rdropwhile_filter, dropwhile_filter in S46, S63
      by (intros c Hc; apply N.eqb_eq in Hc; subst c; reflexivity).
    destruct (to_ascii_points U (replace 44 46 digits)) as [Hk | Hcut].
    + assert (L : forall t,
                 List.filter (fun c => (c =? 46)%N)
                   (to_ascii U (replace 44 46 digits)) = t ->
                 2 <= length t).
      { intros t <-.
        pose proof (f_equal (@length N) (eq_trans Hk Hp)) as L.
        rewrite length_map in L. now rewrite <- L in Hsep. }
      destruct S46 as [S | S]; apply L in S; simpl in S; lia.
    + destruct S63 as [S | S]; [contradiction |].
      apply Hcut. exact S.
Qed.


Lemma parse_price_two_separators_witness :
  parse_price small_unicode (VStr (lit "EGP 1,234.50")) = inr None.
Proof.
  apply (parse_price_two_separators small_unicode (lit "EGP 1,234.50")).
  vm_compute. lia.
Defined.


(** ** The input lists *)

Lemma dropwhile_idem (p : char -> bool) (s : str) :
  dropwhile p (dropwhile p s) = dropwhile p s.
Proof.
  induction s as [| c s IH]; [reflexivity |]. simpl.
  destruct (p c) eqn:E; [exact IH |]. simpl. now rewrite E.
Qed.

Lemma dropwhile_head (p : char -> bool) (s : str) (c : char) (r : str) :
  dropwhile p s = c :: r -> p c = false.
Proof.
  induction s as [| d s IH]; simpl; [discriminate |].
  destruct (p d) eqn:E; [exact IH |]. intros H. inversion H. now subst.
Qed.

Lemma dropwhile_app_keep (p : char -> bool) (l : str) (c : char) (t : str) :
  p c = false -> dropwhile p (l ++ c :: t) = dropwhile p l ++ c :: t.
Proof.
  intros H. induction l as [| d l IH]; simpl; [now rewrite H |].
  destruct (p d); [exact IH | reflexivity].
Qed.

Lemma rdropwhile_cons (p : char -> bool) (c : char) (s : str) :
  p c = false -> rdropwhile p (c :: s) = c :: rdropwhile p s.
Proof.
  intros H. unfold rdropwhile. simpl.
  rewrite (dropwhile_app_keep p (rev s) c [] H), rev_app_distr.
  reflexivity.
Qed.

Lemma rdropwhile_snoc (p : char -> bool) (s : str) (c : char) :
  p c = true -> rdropwhile p (s ++ [c]) = rdropwhile p s.
Proof.
  intros H. unfold rdropwhile. rewrite rev_app_distr. simpl. now rewrite H.
Qed.

Lemma rdropwhile_idem (p : char -> bool) (s : str) :
  rdropwhile p (rdropwhile p s) = rdropwhile p s.
Proof.
  unfold rdropwhile. now rewrite rev_involutive, dropwhile_idem.
Qed.

Lemma strip_idem (U : unicode) (s : str) : strip U (strip U s) = strip U s.
Proof.
  unfold strip. destruct (dropwhile (isspace U) s) as [| c d] eqn:E;
    [reflexivity |].
  pose proof (dropwhile_head _ _ _ _ E) as Hc.
  rewrite (rdropwhile_cons _ c d Hc). simpl. rewrite Hc.
  rewrite <- (rdropwhile_cons _ c d Hc). apply rdropwhile_idem.
Qed.

(** The stripped line is not changed by the end of line. *)
Lemma strip_newline (U : unicode) (s : str) :
  isspace U 10 = true -> strip U (s ++ [10%N]) = strip U s.
Proof.
  intros H. unfold strip.
  destruct (dropwhile (isspace U) s) as [| c d] eqn:E.
  - assert (E' : dropwhile (isspace U) (s ++ [10%N]) = []).
    { clear -E H. induction s as [| x s IH]; simpl in *; [now rewrite H |].
      destruct (isspace U x); [auto | discriminate]. }
    now rewrite E'.
  - assert (E' : dropwhile (isspace U) (s ++ [10%N]) = (c :: d) ++ [10%N]).
    { clear -E. revert E. induction s as [| x s IH]; simpl; [discriminate |].
      destruct (isspace U x); [exact IH |]. intros E. now inversion E. }
    rewrite E'. now apply rdropwhile_snoc.
Qed.

Lemma universal_newlines_no_cr (b : bool) (s : str) :
  ~ In 13%N (universal_newlines b s).
Proof.
  revert b. induction s as [| c s IH]; intros b; simpl; [tauto |].
  destruct (N.eqb_spec c 13) as [-> | Hc].
  - intros [H | H]; [discriminate | now apply (IH true)].
  - destruct ((c =? 10)%N && b); [apply IH |].
    intros [H | H]; [congruence | now apply (IH false)].
Qed.

Lemma universal_newlines_id (s : str) :
  ~ In 13%N s -> universal_newlines false s = s.
Proof.
  induction s as [| c s IH]; [reflexivity |]. simpl. intros H.
  destruct (N.eqb_spec c 13) as [-> | Hc]; [tauto |].
  rewrite andb_false_r. f_equal. tauto.
Qed.

(** The lines are the text, cut after each end of line. *)
Lemma readlines_concat (s : str) : concat (readlines s) = s.
Proof.
  induction s as [| c s IH]; [reflexivity |]. simpl.
  destruct (c =? 10)%N; [simpl; now rewrite IH |].
  destruct (readlines s) as [| l ls]; simpl in *; now rewrite <- IH.
Qed.

Lemma readlines_line (i rest : str) :
  ~ In 10%N i -> readlines (i ++ 10%N :: rest) = (i ++ [10%N]) :: readlines rest.
Proof.
  induction i as [| c i IH]; intros H; [reflexivity |]. simpl.
  destruct (N.eqb_spec c 10) as [-> | Hc]; [simpl in H; tauto |].
  rewrite IH by (simpl in H; tauto). reflexivity.
Qed.

Lemma readlines_unlines (items : list str) :
  Forall (fun i => ~ In 10%N i) items ->
  readlines (unlines items) = map (fun i => i ++ [10%N]) items.
Proof.
  induction 1 as [| i items Hi _ IH]; [reflexivity |].
  unfold unlines in *. simpl. rewrite <- app_assoc. simpl.
  now rewrite readlines_line, IH.
Qed.

(** Every line has one end of line at most, as its last character. *)
Lemma readlines_shape (s : str) :
  Forall (fun l => exists body,
            ~ In 10%N body /\ (l = body ++ [10%N] \/ l = body))
    (readlines s).
Proof.
  induction s as [| c s IH]; [constructor |]. simpl.
  destruct (N.eqb_spec c 10) as [-> | Hc].
  - constructor; [| exact IH]. exists []. split; [tauto | now left].
  - destruct (readlines s) as [| l ls].
    + constructor; [| constructor]. exists [c]. split; [| now right].
      intros [H | []]. congruence.
    + inversion IH as [| ? ? (body & Hb & Hl) Hls]; subst.
      constructor; [| exact Hls]. exists (c :: body). split.
      * intros [H | H]; [congruence | tauto].
      * destruct Hl as [-> | ->]; [now left | now right].
Qed.

Lemma load_fold (U : unicode) (lines : list str) (items : list str) :
  fold_left (load_line U) lines items
  = items ++ List.filter listed (map (strip U) lines).
Proof.
  revert items. induction lines as [| l lines IH]; intros items; simpl;
    [now rewrite app_nil_r |].
  rewrite IH. unfold load_line, listed at 2.
  destruct (strip U l) as [| c r]; [reflexivity |].
  change (startswith (c :: r) (lit "#")) with ((c =? 35)%N && true).
  rewrite andb_true_r. destruct (c =? 35)%N; simpl; [reflexivity |].
  now rewrite <- app_assoc.
Qed.

Section LoadProperties.
Variable open_text : Path -> result str.

Lemma load_list_items (U : unicode) (path : Path) (text : str) :
  open_text path = inr text ->
  load_list_from_file open_text U path
  = inr (List.filter listed
           (map (strip U) (readlines (universal_newlines false text)))).
Proof.
  intros H. unfold load_list_from_file. rewrite H.
  cbn [mbind result_bind bind]. now rewrite load_fold.
Qed.

Lemma stripped_line_clean (U : unicode) (text line : str) :
  isspace U 10 = true ->
  In line (readlines (universal_newlines false text)) ->
  ~ In 10%N (strip U line) /\ ~ In 13%N (strip U line).
Proof.
  intros H10 Hl. split.
  - pose proof (readlines_shape (universal_newlines false text)) as Hs.
    rewrite Forall_forall in Hs. apply list_elem_of_In in Hl.
    destruct (Hs line Hl) as (body & Hb & [-> | ->]).
    + rewrite strip_newline by exact H10. intros Hin. apply Hb.
      unfold strip in Hin. now apply rdropwhile_incl, dropwhile_incl in Hin.
    + intros Hin. apply Hb.
      unfold strip in Hin. now apply rdropwhile_incl, dropwhile_incl in Hin.
  - intros Hin. unfold strip in Hin.
    apply rdropwhile_incl, dropwhile_incl in Hin.
    apply (universal_newlines_no_cr false text).
    rewrite <- (readlines_concat (universal_newlines false text)).
    apply in_concat. eauto.
Qed.

(** The list loaded holds, in the order of the file, the stripped form of
    every line that is neither blank nor a comment (its first character
    after stripping is ['#']), whatever the ends of line of the file are.
    Each item is non-empty, has no whitespace at either end, does not
    start with ['#'] and spans no line; a ['#'] further on in a line is
    kept as part of the item. *)
Theorem load_list_keeps_stripped_lines (U : unicode) (path : Path)
    (text : str) (items : list str) :
  unicode_ok U ->
  open_text path = inr text ->
  load_list_from_file open_text U path = inr items ->
  items = List.filter listed
            (map (strip U) (readlines (universal_newlines false text)))
  /\ Forall (fun item =>
               item <> [] /\ strip U item = item
               /\ startswith item (lit "#") = false
               /\ ~ In 10%N item /\ ~ In 13%N item) items.
Proof.
  intros HU Ho Hl. rewrite (load_list_items U path text Ho) in Hl.
  inversion Hl as [E]. clear Hl. split; [reflexivity |].
  apply Forall_forall. intros item Hi. apply list_elem_of_In in Hi.
  apply filter_In in Hi as [Hi Hk]. apply in_map_iff in Hi as (line & <- & Hi).
  assert (H10 : isspace U 10 = true)
    by (now rewrite (isspace_ascii U HU) by lia).
  destruct (stripped_line_clean U text line H10 Hi) as [Hn Hr].
  split; [| split; [apply strip_idem | split; [| split; assumption]]].
  - intros E0. rewrite E0 in Hk. discriminate.
  - unfold listed in Hk. destruct (strip U line) as [| c r]; [discriminate |].
    change (startswith (c :: r) (lit "#")) with ((c =? 35)%N && true).
    rewrite andb_true_r. now destruct (c =? 35)%N.
Qed.

Lemma load_unlines (U : unicode) (items : list str) :
  isspace U 10 = true ->
  Forall (fun item => listed item = true /\ strip U item = item
                      /\ ~ In 10%N item /\ ~ In 13%N item) items ->
  List.filter listed
    (map (strip U) (readlines (universal_newlines false (unlines items))))
  = items.
Proof.
  intros H10 Hall.
  assert (Hcr : ~ In 13%N (unlines items)).
  { unfold unlines. rewrite in_flat_map. intros (i & Hi & Hin).
    rewrite Forall_forall in Hall. apply list_elem_of_In in Hi.
    destruct (Hall i Hi) as (_ & _ & _ & Hr).
    apply in_app_or in Hin as [Hin | [Hin | []]]; [tauto | discriminate]. }
  rewrite (universal_newlines_id _ Hcr), readlines_unlines.
  2:{ eapply Forall_impl; [exact Hall |]. intros i Hi. simpl in Hi. tauto. }
  rewrite map_map. induction Hall as [| i items (Hk & Hs & _) _ IH];
    [reflexivity |].
  simpl. rewrite strip_newline, Hs, Hk by exact H10. f_equal. apply IH.
  intros Hin. apply Hcr. unfold unlines in *. simpl.
  apply in_or_app. now right.
Qed.

(** Loading is a round trip on what it has loaded: a file that holds the
    loaded items, one on a line, loads as the same list. *)
Theorem load_list_round_trip (U : unicode) (path path' : Path)
    (text : str) (items : list str) :
  unicode_ok U ->
  open_text path = inr text ->
  load_list_from_file open_text U path = inr items ->
  open_text path' = inr (unlines items) ->
  load_list_from_file open_text U path' = inr items.
Proof.
  intros HU Ho Hl Ho'.
  assert (H10 : isspace U 10 = true)
    by (now rewrite (isspace_ascii U HU) by lia).
  rewrite (load_list_items U path text Ho) in Hl. inversion Hl as [E].
  rewrite (load_list_items U path' _ Ho'). f_equal. rewrite E.
  apply load_unlines; [exact H10 |]. subst items. clear Hl Ho'.
  apply Forall_forall. intros item Hi. apply list_elem_of_In in Hi.
  apply filter_In in Hi as [Hi Hk]. apply in_map_iff in Hi as (line & <- & Hi).
  destruct (stripped_line_clean U text line H10 Hi) as [Hn Hr].
  split; [exact Hk |]. split; [apply strip_idem |]. split; assumption.
Qed.
End LoadProperties.


Lemma load_list_keeps_stripped_lines_witness :
  Forall (fun item =>
            item <> [] /\ strip small_unicode item = item
            /\ startswith item (lit "#") = false
            /\ ~ In 10%N item /\ ~ In 13%N item)
    [lit "Cairo"; lit "Giza #1"; lit "Al Ekbal"].
Proof.
  exact (proj2 (load_list_keeps_stripped_lines Sample.open_sample
                  small_unicode [lit "locations.txt"] Sample.locations_text
                  [lit "Cairo"; lit "Giza #1"; lit "Al Ekbal"]
                  small_unicode_ok eq_refl eq_refl)).
Defined.

Lemma load_list_round_trip_witness :
  load_list_from_file Sample.open_sample small_unicode [lit "copy.txt"]
  = inr [lit "Cairo"; lit "Giza #1"; lit "Al Ekbal"].
Proof.
  exact (load_list_round_trip Sample.open_sample small_unicode
           [lit "locations.txt"] [lit "copy.txt"] Sample.locations_text
           [lit "Cairo"; lit "Giza #1"; lit "Al Ekbal"]
           small_unicode_ok eq_refl eq_refl eq_refl).
Defined.


(** ** The browser context *)

Lemma randint_range (a b : Z) (r : rng) :
  (a <= b)%Z -> (a <= fst (randint a b r) <= b)%Z.
Proof.
  intros H. unfold randint, randbelow. cbn [fst].
  assert (Hn : Z.to_N (b - a + 1) <> 0%N) by lia.
  pose proof (N.mod_upper_bound (draws r (drawn r)) _ Hn) as Hm.
  set (m := (draws r (drawn r) mod Z.to_N (b - a + 1))%N) in *.
  clearbody m. lia.
Qed.

(** Whatever the random source gives, the keyword arguments are built
    without an exception; the viewport is between 1200 and 1600 wide and
    between 700 and 1000 high; and [user_agent], when the key is set, is a
    non-empty entry of the configured list.  The key is left out when the
    list is empty, and also when the entry drawn is the empty string. *)
Theorem context_kwargs_in_range (config : ScraperConfig) (r : rng) :
  exists kw r',
    build_browser_context_kwargs config r = (inr kw, r')
    /\ (1200 <= viewport_width kw <= 1600)%Z
    /\ (700 <= viewport_height kw <= 1000)%Z
    /\ (forall ua, user_agent kw = Some ua ->
          ua <> [] /\ In ua (user_agents config))
    /\ (user_agent kw = None ->
          user_agents config = [] \/ In [] (user_agents config)).
Proof.
  unfold build_browser_context_kwargs.
  set (pick := match user_agents config with
               | [] => (ret None, r)
               | _ :: _ => let '(ua, r0) := choice (user_agents config) r in
                           (ua ← ua; ret (Some ua), r0)
               end).
  assert (Hp : exists ua r1,
             pick = (inr ua, r1)
             /\ (forall u, ua = Some u -> In u (user_agents config))
             /\ (ua = None -> user_agents config = [])).
  { subst pick. destruct (user_agents config) as [| a l] eqn:E.
    - exists None, r. split; [reflexivity |]. split; [discriminate | auto].
    - unfold choice, randbelow. cbn [mbind result_bind bind ret].
      eexists _, _. split; [reflexivity |]. split; [| discriminate].
      intros u Hu. injection Hu as Hu. rewrite <- Hu.
      apply (nth_In (a :: l) a).
      assert (Hn : N.of_nat (length (a :: l)) <> 0%N) by (cbn [length]; lia).
      pose proof (N.mod_upper_bound (draws r (drawn r)) _ Hn) as Hm.
      cbn [length] in *.
      set (m := (draws r (drawn r) mod N.of_nat (S (length l)))%N) in *.
      clearbody m. lia. }
  destruct Hp as (ua & r1 & -> & Hin & Hnone).
  pose proof (randint_range 1200 1600 r1 ltac:(lia)) as Hw.
  destruct (randint 1200 1600 r1) as [width r2]. cbn [fst] in Hw.
  pose proof (randint_range 700 1000 r2 ltac:(lia)) as Hh.
  destruct (randint 700 1000 r2) as [height r3]. cbn [fst] in Hh.
  eexists _, _. split; [reflexivity |]. cbn [viewport_width viewport_height
                                              user_agent].
  split; [exact Hw |]. split; [exact Hh |]. split.
  - intros u Hu. destruct ua as [[| c t] |]; try discriminate.
    inversion Hu. subst u. split; [easy | now apply Hin].
  - intros Hu. destruct ua as [[| c t] |]; try discriminate.
    + right. now apply Hin.
    + left. now apply Hnone.
Qed.


(** ** Preparing the page *)

Section PageProperties.
Context {World : Type}.
Variable is_visible : locator -> Z -> World -> result bool * World.
Variable click : locator -> World -> result unit * World.
Variable wait_for : locator -> Z -> World -> result unit * World.
Variable fill : locator -> str -> World -> result unit * World.
Variable press : locator -> str -> World -> result unit * World.
Variable sleep : float -> World -> result unit * World.
Variable random : World -> float * World.

(** Run a helper: take the outcome of the next call on the page, in each
    of its cases. *)
Ltac next_call :=
  match goal with
  | |- context [match ?x with _ => _ end] =>
      lazymatch x with
      | context [match _ with _ => _ end] => fail
      | _ => destruct x
      end
  end.
Ltac run_page :=
  unfold try_except, mbind, page_mbind, page_bind, mret, page_mret, page_ret,
    call, print, random_random, ret;
  repeat (cbv beta iota zeta; next_call);
  cbv beta iota zeta.

(** The helpers that prepare the page never raise, whatever the page
    does: an exception raised by a call in [accept_cookies_if_any],
    [click_all_items_filter] or [set_location] ends the attempt and is
    swallowed, so that the task goes on.  The first two print nothing;
    [set_location] prints its announcement, the warning that the location
    could not be set, or the announcement and then the warning. *)
Theorem soft_steps_never_raise (address : str) (w : World)
    (out : list note) :
  (exists w',
     accept_cookies_if_any is_visible click sleep (w, out)
     = (inr tt, (w', out)))
  /\ (exists w',
        click_all_items_filter is_visible click sleep random (w, out)
        = (inr tt, (w', out)))
  /\ (exists w' added,
        set_location is_visible click wait_for fill press sleep random
          address (w, out)
        = (inr tt, (w', out ++ added))
        /\ (added = [SettingLocation address]
            \/ added = [CouldNotSetLocation]
            \/ added = [SettingLocation address; CouldNotSetLocation])).
Proof.
  split; [| split].
  - unfold accept_cookies_if_any. cbn [for_try].
    run_page; eexists; reflexivity.
  - unfold click_all_items_filter. cbn [for_try].
    run_page; eexists; reflexivity.
  - unfold set_location.
    run_page;
      repeat match goal with u : unit |- _ => destruct u end;
      rewrite <- ?app_assoc; eexists _, _;
      (split; [reflexivity |]); cbn [app]; auto.
Qed.
End PageProperties.


(** ** The homepage opened first *)

Lemma str_split_parts (sep : char) (s : str) :
  str_split sep s <> []
  /\ Forall (fun part => ~ In sep part) (str_split sep s).
Proof.
  induction s as [| c s [IH1 IH2]]; simpl.
  - split; [discriminate | constructor; [tauto | constructor]].
  - destruct (N.eqb_spec c sep) as [-> | Hc].
    + split; [discriminate | constructor; [tauto | exact IH2]].
    + destruct (str_split sep s) as [| p ps]; [contradiction |].
      split; [discriminate |]. inversion IH2; subst.
      constructor; [| assumption]. intros [H | H]; [congruence | tauto].
Qed.

Lemma str_split_first (sep : char) (first rest : str) :
  ~ In sep first ->
  str_split sep (first ++ sep :: rest) = first :: str_split sep rest.
Proof.
  induction first as [| c first IH]; intros H; simpl.
  - now rewrite N.eqb_refl.
  - destruct (N.eqb_spec c sep) as [-> | Hc]; [simpl in H; tauto |].
    rewrite IH by (simpl in H; tauto). reflexivity.
Qed.

Lemma str_split_last (sep : char) (s : str) :
  ~ In sep s -> str_split sep s = [s].
Proof.
  induction s as [| c s IH]; intros H; simpl; [reflexivity |].
  destruct (N.eqb_spec c sep) as [-> | Hc]; [simpl in H; tauto |].
  rewrite IH by (simpl in H; tauto). reflexivity.
Qed.

Section LocaleProperties.
Variable urlparse_path : str -> result str.

(** The locale of the homepage is never empty and holds no ['/'], so the
    homepage URL is the site with one more path segment.  It is the text
    between the first and the second ['/'] of the path of the category
    URL; when the URL cannot be parsed, or its path has no second segment
    or an empty one, it is ["en-eg"]. *)
Theorem locale_is_one_segment (category_url : str) :
  let l := locale urlparse_path category_url in
  l <> [] /\ ~ In 47%N l
  /\ (forall e, urlparse_path category_url = inl e -> l = lit "en-eg")
  /\ (forall first segment rest,
        ~ In 47%N first -> ~ In 47%N segment ->
        (urlparse_path category_url = inr (first ++ 47%N :: segment)
         \/ urlparse_path category_url
            = inr (first ++ 47%N :: segment ++ 47%N :: rest)) ->
        l = match segment with [] => lit "en-eg" | _ :: _ => segment end)
  /\ (forall path, urlparse_path category_url = inr path ->
        ~ In 47%N path -> l = lit "en-eg").
Proof.
  intros l. subst l. unfold locale.
  assert (Hd : lit "en-eg" <> [] /\ ~ In 47%N (lit "en-eg")).
  { split; [discriminate |]. vm_compute. intuition discriminate. }
  split; [| split; [| split; [| split]]].
  - destruct (urlparse_path category_url) as [e | path]; [apply Hd |].
    destruct (str_split 47 path) as [| p0 [| [| c p1] ps]]; try apply Hd.
    discriminate.
  - destruct (urlparse_path category_url) as [e | path]; [apply Hd |].
    pose proof (str_split_parts 47 path) as [_ Hall].
    destruct (str_split 47 path) as [| p0 [| [| c p1] ps]]; try apply Hd.
    inversion Hall as [| ? ? _ Hall']. inversion Hall'. assumption.
  - intros e ->. reflexivity.
  - intros first segment rest Hf Hs [-> | ->].
    + pose proof (str_split_first 47 first segment Hf) as E1.
      pose proof (str_split_last 47 segment Hs) as E2.
      unfold str, char in *. rewrite E1, E2. now destruct segment.
    + pose proof (str_split_first 47 first (segment ++ 47%N :: rest) Hf)
        as E1.
      pose proof (str_split_first 47 segment rest Hs) as E2.
      unfold str, char in *. rewrite E1, E2. now destruct segment.
  - intros path -> Hp. now rewrite (str_split_last 47 path Hp).
Qed.
End LocaleProperties.
